(** * Catalogue models of django-shop/products/models.py

    A shallow embedding of the [products] application: the declarative
    constraints of [Category], [Product] and [ProductTag], the two query-set
    filters, slug assignment ([Product._ensure_slug]), [Product.save] and
    [Product.publish].

    The relational store is modelled as one list of rows per table.  A
    write (INSERT or UPDATE) is accepted exactly when the written row
    breaks none of the constraints declared in the model's [Meta]; the
    evaluation of those constraints follows SQL: comparisons with NULL are
    unknown, a CHECK rejects a row only when its condition is false, and a
    unique index only compares keys without NULL and only indexes the rows
    that satisfy its condition.

    Only the primary key and the entries of [Meta.constraints] decide
    whether a write is accepted: column types, NOT NULL, [max_length] and
    foreign keys are outside the model, so that a write refused here is
    refused by the database, while a write accepted here can still be
    refused there.  Prices are whole hundredths, as the column stores
    them.  Rows may be deleted freely, which covers PROTECT and CASCADE
    alike. *)

From Stdlib Require Import ZArith List String Ascii Bool Lia FinFun.
From Stdlib Require Import DecimalString DecimalZ DecimalPos.
Import ListNotations.

Local Open Scope string_scope.
Local Open Scope list_scope.
Local Open Scope Z_scope.

(* ------------------------------------------------------------------ *)
(** ** Text helpers *)
(* ------------------------------------------------------------------ *)

Module Text.

Definition code (c : ascii) : N := N_of_ascii c.

Definition between (lo hi : N) (c : ascii) : bool :=
  (N.leb lo (code c) && N.leb (code c) hi)%bool.

Definition is_upper : ascii -> bool := between 65 90.
Definition is_lower : ascii -> bool := between 97 122.
Definition is_digit : ascii -> bool := between 48 57.

(** [str.lower()] / SQL [LOWER] on one ASCII character. *)
Definition lower_char (c : ascii) : ascii :=
  if is_upper c then ascii_of_N (code c + 32) else c.

(** SQL [LOWER(...)] as used by [Lower("name")] and [Lower("slug")];
    ASCII letters are folded, every other character is kept. *)
Fixpoint Lower (text : string) : string :=
  match text with
  | "" => ""
  | String c rest => String (lower_char c) (Lower rest)
  end.

(** [str(i)] for a Python int: decimal digits, a leading minus sign for
    negative numbers, no leading zeros. *)
Definition str (i : Z) : string := NilZero.string_of_int (Z.to_int i).

(** The f-string [f"{base}-{i}"]. *)
Definition fmt_base_i (base : string) (i : Z) : string :=
  (base ++ "-" ++ str i)%string.

(** *** [django.utils.text.slugify] on ASCII text

    [slugify(value)] with [allow_unicode=False] is
    [[
      value = unicodedata.normalize("NFKD", value)
                .encode("ascii", "ignore").decode("ascii")
      value = re.sub(r"[^\w\s-]", "", value.lower())
      return re.sub(r"[-\s]+", "-", value).strip("-_")
    ]]
    On ASCII input the first step is the identity; the model drops the
    characters above 127.  The function is only used for concrete
    examples: every general result below is stated for an arbitrary
    [slugify]. *)

(** [\w] on ASCII text: letters, digits and the underscore. *)
Definition is_word (c : ascii) : bool :=
  (is_upper c || is_lower c || is_digit c || Ascii.eqb c "_")%bool.

(** [\s] on ASCII text: TAB, LF, VT, FF, CR, FS, GS, RS, US and space. *)
Definition is_space (c : ascii) : bool :=
  (between 9 13 c || between 28 32 c)%bool.

Definition is_hyphen (c : ascii) : bool := Ascii.eqb c "-".

Definition keep_char (c : ascii) : bool :=
  (is_word c || is_space c || is_hyphen c)%bool.

(** [re.sub(r"[-\s]+", "-", value)]; [in_run] records that the previous
    character already belonged to the run being replaced. *)
Fixpoint collapse_runs (in_run : bool) (l : list ascii) : list ascii :=
  match l with
  | [] => []
  | c :: l' =>
      if (is_hyphen c || is_space c)%bool
      then (if in_run then collapse_runs true l'
            else "-"%char :: collapse_runs true l')
      else c :: collapse_runs false l'
  end.

Definition strip_char (c : ascii) : bool :=
  (Ascii.eqb c "-" || Ascii.eqb c "_")%bool.

Fixpoint lstrip (l : list ascii) : list ascii :=
  match l with
  | [] => []
  | c :: l' => if strip_char c then lstrip l' else l
  end.

Definition strip (l : list ascii) : list ascii :=
  rev (lstrip (rev (lstrip l))).

Definition slugify_ascii (value : string) : string :=
  let ascii_only :=
    filter (fun c => N.ltb (code c) 128) (list_ascii_of_string value) in
  let lowered := map lower_char ascii_only in
  let kept := filter keep_char lowered in
  string_of_list_ascii (strip (collapse_runs false kept)).

(** Python truthiness of a string: the empty string is false. *)
Definition truthy (s : string) : bool := negb (String.eqb s "").

(** [a or b] on strings. *)
Definition str_or (a b : string) : string := if truthy a then a else b.

End Text.

(* ------------------------------------------------------------------ *)
(** ** The storage layer: values, constraints, tables *)
(* ------------------------------------------------------------------ *)

Module Storage.

(** Column values; [VNull] is SQL NULL. *)
Inductive Value : Type :=
| VNull
| VInt (z : Z)
| VStr (s : string)
| VBool (b : bool).

Definition value_eqb (a b : Value) : bool :=
  match a, b with
  | VNull, VNull => true
  | VInt x, VInt y => Z.eqb x y
  | VStr x, VStr y => String.eqb x y
  | VBool x, VBool y => Bool.eqb x y
  | _, _ => false
  end.

Definition of_option_int (o : option Z) : Value :=
  match o with Some z => VInt z | None => VNull end.

(** Three-valued conditions: [None] is SQL's unknown. *)
Definition sql_eq (a b : Value) : option bool :=
  match a, b with
  | VNull, _ | _, VNull => None
  | _, _ => Some (value_eqb a b)
  end.

Definition sql_gte (a b : Value) : option bool :=
  match a, b with
  | VInt x, VInt y => Some (Z.leb y x)
  | _, _ => None
  end.

Definition sql_not (t : option bool) : option bool := option_map negb t.

(** A CHECK constraint rejects a row only when its condition is false. *)
Definition check_passes (t : option bool) : bool :=
  match t with Some false => false | _ => true end.

(** Two index keys collide when every component is non-NULL and equal. *)
Fixpoint keys_collide (k1 k2 : list Value) : bool :=
  match k1, k2 with
  | [], [] => true
  | a :: k1', b :: k2' =>
      match sql_eq a b with
      | Some true => keys_collide k1' k2'
      | _ => false
      end
  | _, _ => false
  end.

(** What a write can raise.  [IntegrityError] carries every declared
    constraint that the written row breaks; a database reports one of
    them. *)
Inductive Error : Type :=
| IntegrityError (violated : list string)
| ValueError
| DatabaseError.

Inductive Result (A : Type) : Type :=
| Ok (a : A)
| Raise (e : Error).
Arguments Ok {A} a.
Arguments Raise {A} e.

Definition primary_key : string := "primary_key".

Section Table.

Variable Row : Type.
(** The primary key column; rows in a table carry [Some pk]. *)
Variable pk_of : Row -> option Z.

(** The entries of [Meta.constraints]. *)
Inductive Constraint : Type :=
| UniqueConstraint (key : Row -> list Value) (condition : Row -> bool)
                   (name : string)
| CheckConstraint (check : Row -> option bool) (name : string).

Definition constraint_name (c : Constraint) : string :=
  match c with
  | UniqueConstraint _ _ n => n
  | CheckConstraint _ n => n
  end.

Definition is_unique (c : Constraint) : bool :=
  match c with UniqueConstraint _ _ _ => true | _ => false end.

(** [r] and [q] cannot both be in the (partial) unique index. *)
Definition conflict (c : Constraint) (r q : Row) : bool :=
  match c with
  | UniqueConstraint key condition _ =>
      (condition r && condition q && keys_collide (key r) (key q))%bool
  | CheckConstraint _ _ => false
  end.

Definition check_ok (c : Constraint) (r : Row) : bool :=
  match c with
  | UniqueConstraint _ _ _ => true
  | CheckConstraint check _ => check_passes (check r)
  end.

Definition violates (c : Constraint) (r : Row) (rest : list Row) : bool :=
  (negb (check_ok c r) || existsb (conflict c r) rest)%bool.

Variable constraints : list Constraint.

(** Names of the constraints that writing [r] next to [rest] breaks. *)
Definition violated (r : Row) (rest : list Row) : list string :=
  map constraint_name (filter (fun c => violates c r rest) constraints).

Definition unique_names : list string :=
  map constraint_name (filter is_unique constraints).

Definition has_pk (k : Z) (r : Row) : bool :=
  match pk_of r with Some k' => Z.eqb k' k | None => false end.

Definition exists_pk (k : Z) (tbl : list Row) : bool :=
  existsb (has_pk k) tbl.

Definition find_pk (k : Z) (tbl : list Row) : option Row :=
  find (has_pk k) tbl.

Definition others (k : Z) (tbl : list Row) : list Row :=
  filter (fun q => negb (has_pk k q)) tbl.

Definition replace_pk (k : Z) (r : Row) (tbl : list Row) : list Row :=
  map (fun q => if has_pk k q then r else q) tbl.

(** The next value of the auto-increment key. *)
Definition next_pk (tbl : list Row) : Z :=
  1 + fold_right (fun r m => match pk_of r with
                             | Some k => Z.max k m
                             | None => m
                             end) 0 tbl.

(** [INSERT INTO ... VALUES r]. *)
Definition INSERT (r : Row) (tbl : list Row) : Result (list Row) :=
  match pk_of r with
  | None => Raise (IntegrityError [primary_key])
  | Some k =>
      if exists_pk k tbl then Raise (IntegrityError [primary_key])
      else match violated r tbl with
           | [] => Ok (tbl ++ [r])
           | v => Raise (IntegrityError v)
           end
  end.

(** [UPDATE ... SET <columns of r> WHERE pk = pk_of r]; the result is
    [None] when no row matched. *)
Definition UPDATE (r : Row) (tbl : list Row)
  : Result (option (list Row)) :=
  match pk_of r with
  | None => Ok None
  | Some k =>
      if exists_pk k tbl then
        match violated r (others k tbl) with
        | [] => Ok (Some (replace_pk k r tbl))
        | v => Raise (IntegrityError v)
        end
      else Ok None
  end.

(** [DELETE FROM ... WHERE pk = k]. *)
Definition DELETE (k : Z) (tbl : list Row) : list Row := others k tbl.

(** One accepted write. *)
Inductive step : list Row -> list Row -> Prop :=
| step_insert r tbl tbl' :
    INSERT r tbl = Ok tbl' -> step tbl tbl'
| step_update r tbl tbl' :
    UPDATE r tbl = Ok (Some tbl') -> step tbl tbl'
| step_delete k tbl :
    step tbl (DELETE k tbl).

(** Tables that can be built from the empty table. *)
Inductive reachable : list Row -> Prop :=
| reach_empty : reachable []
| reach_step tbl tbl' : reachable tbl -> step tbl tbl' -> reachable tbl'.

(** What the store guarantees about a table. *)
Record consistent (tbl : list Row) : Prop := {
  pks_set : forall r, In r tbl -> pk_of r <> None;
  pks_distinct : NoDup (map pk_of tbl);
  checks_hold :
    forall c r, In c constraints -> In r tbl -> check_ok c r = true;
  uniques_hold :
    forall c r q, In c constraints -> In r tbl -> In q tbl ->
                  pk_of r <> pk_of q -> conflict c r q = false
}.

End Table.

Arguments UniqueConstraint {Row} key condition name.
Arguments CheckConstraint {Row} check name.
Arguments constraint_name {Row} c.
Arguments is_unique {Row} c.
Arguments conflict {Row} c r q.
Arguments check_ok {Row} c r.
Arguments violates {Row} c r rest.
Arguments violated {Row} constraints r rest.
Arguments unique_names {Row} constraints.
Arguments has_pk {Row} pk_of k r.
Arguments exists_pk {Row} pk_of k tbl.
Arguments find_pk {Row} pk_of k tbl.
Arguments others {Row} pk_of k tbl.
Arguments replace_pk {Row} pk_of k r tbl.
Arguments next_pk {Row} pk_of tbl.
Arguments INSERT {Row} pk_of constraints r tbl.
Arguments UPDATE {Row} pk_of constraints r tbl.
Arguments DELETE {Row} pk_of k tbl.
Arguments step {Row} pk_of constraints _ _.
Arguments reachable {Row} pk_of constraints _.
Arguments consistent {Row} pk_of constraints tbl.

(** The table a caller sees after a write: unchanged when it raised. *)
Definition table_after {Row : Type} (res : Result (list Row))
           (before : list Row) : list Row :=
  match res with Ok t => t | Raise _ => before end.

End Storage.

Import Storage.

(* ------------------------------------------------------------------ *)
(** ** Category *)
(* ------------------------------------------------------------------ *)

Module Category.

Record Category : Type := {
  id : option Z;
  name : string;
  slug : string;
  parent_id : option Z
}.

(** Unique slug within the same parent (case-insensitive):
    [UniqueConstraint(Lower("slug"), "parent", ...)]. *)
Definition cat_unique_slug_per_parent_ci : Constraint Category :=
  UniqueConstraint
    (fun c => [VStr (Text.Lower (slug c)); of_option_int (parent_id c)])
    (fun _ => true)
    "cat_unique_slug_per_parent_ci".

(** Disallow self-parenting: [CheckConstraint(check=~Q(parent=F("id")))]. *)
Definition cat_no_self_parent : Constraint Category :=
  CheckConstraint
    (fun c => sql_not (sql_eq (of_option_int (parent_id c))
                              (of_option_int (id c))))
    "cat_no_self_parent".

(** [Meta.constraints] of [Category]. *)
Definition constraints : list (Constraint Category) :=
  [cat_unique_slug_per_parent_ci; cat_no_self_parent].

Definition insert := INSERT id constraints.
Definition update := UPDATE id constraints.
Definition persisted := reachable id constraints.

(** What [str(category)] can end in: the text, [Category.DoesNotExist]
    when [self.parent] finds no row, or [RecursionError] when the calls
    nest deeper than the interpreter allows. *)
Inductive StrResult : Type :=
| Str (s : string)
| DoesNotExist
| RecursionError.

(** The parent to print: [self.parent_id] when it is truthy ([None] and
    [0] are not). *)
Definition truthy_parent_id (self : Category) : option Z :=
  match parent_id self with
  | Some k => if Z.eqb k 0 then None else Some k
  | None => None
  end.

(** [Category.__str__]:
    [f"{self.parent} > {self.name}" if self.parent_id else self.name].
    [self.parent] loads the row whose key is [parent_id] and formatting it
    calls [__str__] on it; [limit] is the number of nested calls still
    allowed. *)
Fixpoint __str__ (limit : nat) (objects : list Category) (self : Category)
  : StrResult :=
  match limit with
  | O => RecursionError
  | S limit' =>
      match truthy_parent_id self with
      | Some k =>
          match find_pk id k objects with
          | Some parent =>
              match __str__ limit' objects parent with
              | Str s => Str (s ++ " > " ++ name self)%string
              | failure => failure
              end
          | None => DoesNotExist
          end
      | None => Str (name self)
      end
  end.

(** [path] lists [self] and its ancestors in [objects], topmost first. *)
Inductive lineage (objects : list Category)
  : list Category -> Category -> Prop :=
| lineage_top self :
    truthy_parent_id self = None -> lineage objects [self] self
| lineage_child path parent self k :
    truthy_parent_id self = Some k ->
    find_pk id k objects = Some parent ->
    lineage objects path parent ->
    lineage objects (path ++ [self]) self.

End Category.

(* ------------------------------------------------------------------ *)
(** ** Tag *)
(* ------------------------------------------------------------------ *)

Module Tag.

Record Tag : Type := {
  id : option Z;
  name : string;
  slug : string
}.

(** [UniqueConstraint(Lower("name"), name="tag_name_ci_unique")]. *)
Definition tag_name_ci_unique : Constraint Tag :=
  UniqueConstraint (fun t => [VStr (Text.Lower (name t))])
                   (fun _ => true)
                   "tag_name_ci_unique".

(** [UniqueConstraint(Lower("slug"), name="tag_slug_ci_unique")]. *)
Definition tag_slug_ci_unique : Constraint Tag :=
  UniqueConstraint (fun t => [VStr (Text.Lower (slug t))])
                   (fun _ => true)
                   "tag_slug_ci_unique".

(** [Meta.constraints] of [Tag]. *)
Definition constraints : list (Constraint Tag) :=
  [tag_name_ci_unique; tag_slug_ci_unique].

Definition insert := INSERT id constraints.
Definition update := UPDATE id constraints.
Definition persisted := reachable id constraints.

End Tag.

(* ------------------------------------------------------------------ *)
(** ** Product *)
(* ------------------------------------------------------------------ *)

Module ProductStatus.
Definition DRAFT : string := "draft".
Definition PUBLISHED : string := "published".
End ProductStatus.

Module Product.

(** A [Product] instance.  [price] counts hundredths (the column is
    [numeric(10, 2)]); the three timestamps are instants; [pk],
    [created_at] and [updated_at] are [None] until the first INSERT. *)
Record Product : Type := {
  pk : option Z;
  category_id : option Z;
  name : string;
  slug : string;
  description : string;
  price : Z;
  is_active : bool;
  status : string;
  published_at : option Z;
  created_at : option Z;
  updated_at : option Z
}.

Definition set_pk (v : option Z) (p : Product) : Product :=
  {| pk := v; category_id := category_id p; name := name p;
     slug := slug p; description := description p; price := price p;
     is_active := is_active p; status := status p;
     published_at := published_at p; created_at := created_at p;
     updated_at := updated_at p |}.

Definition set_slug (v : string) (p : Product) : Product :=
  {| pk := pk p; category_id := category_id p; name := name p;
     slug := v; description := description p; price := price p;
     is_active := is_active p; status := status p;
     published_at := published_at p; created_at := created_at p;
     updated_at := updated_at p |}.

Definition set_status (v : string) (p : Product) : Product :=
  {| pk := pk p; category_id := category_id p; name := name p;
     slug := slug p; description := description p; price := price p;
     is_active := is_active p; status := v;
     published_at := published_at p; created_at := created_at p;
     updated_at := updated_at p |}.

Definition set_published_at (v : option Z) (p : Product) : Product :=
  {| pk := pk p; category_id := category_id p; name := name p;
     slug := slug p; description := description p; price := price p;
     is_active := is_active p; status := status p;
     published_at := v; created_at := created_at p;
     updated_at := updated_at p |}.

Definition set_created_at (v : option Z) (p : Product) : Product :=
  {| pk := pk p; category_id := category_id p; name := name p;
     slug := slug p; description := description p; price := price p;
     is_active := is_active p; status := status p;
     published_at := published_at p; created_at := v;
     updated_at := updated_at p |}.

Definition set_updated_at (v : option Z) (p : Product) : Product :=
  {| pk := pk p; category_id := category_id p; name := name p;
     slug := slug p; description := description p; price := price p;
     is_active := is_active p; status := status p;
     published_at := published_at p; created_at := created_at p;
     updated_at := v |}.

(** [CheckConstraint(check=Q(price__gte=0))]. *)
Definition product_price_gte_0 : Constraint Product :=
  CheckConstraint (fun p => sql_gte (VInt (price p)) (VInt 0))
                  "product_price_gte_0".

(** [UniqueConstraint(Lower("name"), condition=Q(is_active=True))]. *)
Definition product_name_ci_unique_active : Constraint Product :=
  UniqueConstraint (fun p => [VStr (Text.Lower (name p))])
                   (fun p => Bool.eqb (is_active p) true)
                   "product_name_ci_unique_active".

(** [UniqueConstraint(Lower("slug"), condition=Q(is_active=True))]. *)
Definition product_slug_ci_unique_active : Constraint Product :=
  UniqueConstraint (fun p => [VStr (Text.Lower (slug p))])
                   (fun p => Bool.eqb (is_active p) true)
                   "product_slug_ci_unique_active".

(** [Meta.constraints] of [Product]. *)
Definition constraints : list (Constraint Product) :=
  [product_price_gte_0; product_name_ci_unique_active;
   product_slug_ci_unique_active].

Definition insert := INSERT pk constraints.
Definition update := UPDATE pk constraints.
Definition persisted := reachable pk constraints.

(** *** [ProductQuerySet]: a query set is the list of its rows. *)

Definition active (self : list Product) : list Product :=
  filter (fun p => Bool.eqb (is_active p) true) self.

Definition published (self : list Product) : list Product :=
  filter (fun p => (String.eqb (status p) ProductStatus.PUBLISHED
                    && Bool.eqb (is_active p) true)%bool) self.

(** [needle] occurs in [hay]. *)
Fixpoint contains (needle hay : string) : bool :=
  match hay with
  | "" => String.prefix needle ""
  | String _ rest => (String.prefix needle hay || contains needle rest)%bool
  end.

(** The lookup [field__icontains=q]: [q] occurs in the column, letter
    case ignored. *)
Definition icontains (field q : string) : bool :=
  contains (Text.Lower q) (Text.Lower field).

(** [ProductQuerySet.search]; [q] is an [Optional[str]], and [not q]
    holds of [None] and of the empty string. *)
Definition search (q : option string) (self : list Product)
  : list Product :=
  match q with
  | None => self
  | Some text =>
      if negb (Text.truthy text) then self
      else filter (fun p => (icontains (name p) text
                             || icontains (description p) text)%bool) self
  end.

(** [.exclude(pk=v)]: with [v = None] the lookup is [pk IS NULL], which
    no stored row satisfies, so nothing is excluded. *)
Definition exclude_pk (v : option Z) (qs : list Product) : list Product :=
  match v with
  | Some k => filter (fun q => negb (has_pk pk k q)) qs
  | None => qs
  end.

Definition exists_ (qs : list Product) : bool :=
  match qs with [] => false | _ :: _ => true end.

(** The loop condition of [_ensure_slug]:
    [Product.objects.filter(slug=slug, is_active=True)
            .exclude(pk=self.pk).exists()]. *)
Definition slug_in_use (objects : list Product) (self_pk : option Z)
           (s : string) : bool :=
  exists_
    (exclude_pk self_pk
       (filter (fun q => (String.eqb (slug q) s
                          && Bool.eqb (is_active q) true)%bool) objects)).

(** The [while] loop of [_ensure_slug], started in the state
    [(slug, i)]; [None] when [fuel] iterations were not enough. *)
Fixpoint _ensure_slug_loop (fuel : nat) (objects : list Product)
         (self_pk : option Z) (base slug : string) (i : Z)
  : option string :=
  match fuel with
  | O => None
  | S fuel' =>
      if slug_in_use objects self_pk slug
      then _ensure_slug_loop fuel' objects self_pk base
                             (Text.fmt_base_i base i) (i + 1)
      else Some slug
  end.

Section WithSlugify.

(** [django.utils.text.slugify]. *)
Variable slugify : string -> string.

Definition slug_base (self : Product) : string :=
  Text.str_or (slugify (name self)) "product".

(** [Product._ensure_slug].  The loop is run for at most
    [length objects + 1] iterations, which is shown below to be always
    enough, so that the last branch is never taken. *)
Definition _ensure_slug (self : Product) (objects : list Product)
  : Product :=
  if (Text.truthy (slug self) || negb (Text.truthy (name self)))%bool
  then self
  else
    let base := slug_base self in
    match _ensure_slug_loop (S (List.length objects)) objects (pk self)
                            base base 2 with
    | Some s => set_slug s self
    | None => self
    end.

Definition mentions (fields : list string) (f : string) : bool :=
  existsb (String.eqb f) fields.

(** The row written by [UPDATE ... SET <fields>]: the listed columns
    come from the instance, the others stay as stored. *)
Definition merge_fields (fields : list string) (self old : Product)
  : Product :=
  let pick {A} (f : string) (get : Product -> A) : A :=
    if mentions fields f then get self else get old in
  {| pk := pk old;
     category_id := pick "category" category_id;
     name := pick "name" name;
     slug := pick "slug" slug;
     description := pick "description" description;
     price := pick "price" price;
     is_active := pick "is_active" is_active;
     status := pick "status" status;
     published_at := pick "published_at" published_at;
     created_at := pick "created_at" created_at;
     updated_at := pick "updated_at" updated_at |}.

(** [models.Model.save] for [Product] (what [super().save(...)] runs):
    - with [update_fields] and no primary key: [ValueError];
    - with [update_fields]: an UPDATE of the listed columns, and
      [DatabaseError] when no row matched;
    - with a primary key: an UPDATE of every column, and an INSERT
      when no row matched;
    - without a primary key: an INSERT under the next key.
    [updated_at] ([auto_now]) is stamped whenever it is written,
    [created_at] ([auto_now_add]) on INSERT.  The instance is returned
    next to the outcome, since the stamps and the new key are set on
    it. *)
Definition Model_save (update_fields : option (list string)) (now : Z)
           (self : Product) (objects : list Product)
  : Product * Result (list Product) :=
  match update_fields with
  | Some [] => (self, Ok objects)
  | Some fields =>
      match pk self with
      | None => (self, Raise ValueError)
      | Some k =>
          let self1 :=
            if mentions fields "updated_at"
            then set_updated_at (Some now) self else self in
          match find_pk pk k objects with
          | None => (self1, Raise DatabaseError)
          | Some old =>
              match update (merge_fields fields self1 old) objects with
              | Ok (Some objects') => (self1, Ok objects')
              | Ok None => (self1, Raise DatabaseError)
              | Raise e => (self1, Raise e)
              end
          end
      end
  | None =>
      match pk self with
      | Some k =>
          let self1 := set_updated_at (Some now) self in
          match update self1 objects with
          | Ok (Some objects') => (self1, Ok objects')
          | Ok None =>
              let self2 := set_created_at (Some now) self1 in
              (self2, insert self2 objects)
          | Raise e => (self1, Raise e)
          end
      | None =>
          let self1 :=
            set_updated_at (Some now) (set_created_at (Some now) self) in
          let row := set_pk (Some (next_pk pk objects)) self1 in
          match insert row objects with
          | Ok objects' => (row, Ok objects')
          | Raise e => (self1, Raise e)
          end
      end
  end.

(** [Product.save]. *)
Definition save (update_fields : option (list string)) (now : Z)
           (self : Product) (objects : list Product)
  : Product * Result (list Product) :=
  let self1 := _ensure_slug self objects in
  let self2 :=
    if (String.eqb (status self1) ProductStatus.PUBLISHED
        && match published_at self1 with None => true | _ => false end)%bool
    then set_published_at (Some now) self1
    else self1 in
  Model_save update_fields now self2 objects.

(** [Product.publish].  A [datetime] is always truthy, so
    [self.published_at or timezone.now()] keeps any stamp already
    there. *)
Definition publish (now : Z) (self : Product) (objects : list Product)
  : Product * Result (list Product) :=
  if negb (String.eqb (status self) ProductStatus.PUBLISHED) then
    let self1 := set_status ProductStatus.PUBLISHED self in
    let self2 :=
      set_published_at
        (match published_at self1 with
         | Some t => Some t
         | None => Some now
         end) self1 in
    save (Some ["status"; "published_at"; "updated_at"]) now self2 objects
  else (self, Ok objects).

(** Tables kept through the model's own operations: full saves,
    [publish], and deletions. *)
Inductive managed : list Product -> Prop :=
| managed_empty : managed []
| managed_save now self objects objects' :
    managed objects ->
    snd (save None now self objects) = Ok objects' ->
    managed objects'
| managed_publish now self objects objects' :
    managed objects ->
    snd (publish now self objects) = Ok objects' ->
    managed objects'
| managed_delete k objects :
    managed objects -> managed (DELETE pk k objects).

End WithSlugify.

(** [p] and [q] agree on every column other than [status],
    [published_at] and [updated_at]. *)
Definition same_frame (p q : Product) : Prop :=
  pk p = pk q /\ category_id p = category_id q /\ name p = name q /\
  slug p = slug q /\ description p = description q /\
  price p = price q /\ is_active p = is_active q /\
  created_at p = created_at q.

(** [p] and [q] agree on every column other than [price]. *)
Definition same_but_price (p q : Product) : Prop :=
  pk p = pk q /\ category_id p = category_id q /\ name p = name q /\
  slug p = slug q /\ description p = description q /\
  is_active p = is_active q /\ status p = status q /\
  published_at p = published_at q /\ created_at p = created_at q /\
  updated_at p = updated_at q.

(** [q] is a row other than the instance being saved, as
    [.exclude(pk=self.pk)] sees it. *)
Definition other_than_self (self_pk : option Z) (q : Product) : Prop :=
  match self_pk with Some k => pk q <> Some k | None => True end.

(** The [k]-th slug tried by [_ensure_slug]: [base], then [base-2],
    [base-3], ... *)
Definition candidate (base : string) (k : nat) : string :=
  match k with
  | O => base
  | S j => Text.fmt_base_i base (Z.of_nat j + 2)
  end.

(** [s] is the first slug of the sequence that no other active row
    uses. *)
Definition first_free (objects : list Product) (self_pk : option Z)
           (base s : string) : Prop :=
  exists k : nat,
    s = candidate base k /\
    slug_in_use objects self_pk s = false /\
    forall j : nat, (j < k)%nat ->
                    slug_in_use objects self_pk (candidate base j) = true.

End Product.

(* ------------------------------------------------------------------ *)
(** ** ProductTag *)
(* ------------------------------------------------------------------ *)

Module ProductTag.

Record ProductTag : Type := {
  id : option Z;
  product_id : Z;
  tag_id : Z;
  weight : Z;
  added_at : option Z
}.

(** [UniqueConstraint(fields=["product", "tag"])]. *)
Definition product_tag_unique : Constraint ProductTag :=
  UniqueConstraint (fun r => [VInt (product_id r); VInt (tag_id r)])
                   (fun _ => true)
                   "product_tag_unique".

(** [CheckConstraint(check=Q(weight__gte=1))]. *)
Definition producttag_weight_gte_1 : Constraint ProductTag :=
  CheckConstraint (fun r => sql_gte (VInt (weight r)) (VInt 1))
                  "producttag_weight_gte_1".

(** [Meta.constraints] of [ProductTag]. *)
Definition constraints : list (Constraint ProductTag) :=
  [product_tag_unique; producttag_weight_gte_1].

Definition insert := INSERT id constraints.
Definition update := UPDATE id constraints.
Definition persisted := reachable id constraints.

End ProductTag.

(* ------------------------------------------------------------------ *)
(** ** Deleting rows: [on_delete] across the four tables *)
(* ------------------------------------------------------------------ *)

Module Catalog.

Record DB : Type := {
  categories : list Category.Category;
  tags : list Tag.Tag;
  products : list Product.Product;
  product_tags : list ProductTag.ProductTag
}.

(** How [instance.delete()] ends: the new tables, [ProtectedError] with
    the rows that protect the instance, or the refusal to delete an
    instance that has no primary key. *)
Inductive Deletion : Type :=
| Deleted (db : DB)
| ProtectedError (children : list Category.Category)
                 (products : list Product.Product)
| Unsaved.

(** [category.children]: the rows whose [parent] is the category [k]
    ([Category.parent], [on_delete=PROTECT]). *)
Definition children_of (k : Z) (db : DB) : list Category.Category :=
  filter (fun c => match Category.parent_id c with
                   | Some parent => Z.eqb parent k
                   | None => false
                   end) (categories db).

(** [category.products]: the products filed under the category [k]
    ([Product.category], [on_delete=PROTECT]). *)
Definition products_of (k : Z) (db : DB) : list Product.Product :=
  filter (fun p => match Product.category_id p with
                   | Some category => Z.eqb category k
                   | None => false
                   end) (products db).

(** [Category.delete]: refused while a child category or a product
    refers to the category. *)
Definition delete_category (self : Category.Category) (db : DB)
  : Deletion :=
  match Category.id self with
  | None => Unsaved
  | Some k =>
      match children_of k db, products_of k db with
      | [], [] =>
          Deleted {| categories := DELETE Category.id k (categories db);
                     tags := tags db;
                     products := products db;
                     product_tags := product_tags db |}
      | children, filed => ProtectedError children filed
      end
  end.

(** [Product.delete]: the join rows of the product go with it
    ([ProductTag.product], [on_delete=CASCADE]). *)
Definition delete_product (self : Product.Product) (db : DB) : Deletion :=
  match Product.pk self with
  | None => Unsaved
  | Some k =>
      Deleted {| categories := categories db;
                 tags := tags db;
                 products := DELETE Product.pk k (products db);
                 product_tags :=
                   filter (fun r => negb (Z.eqb (ProductTag.product_id r) k))
                          (product_tags db) |}
  end.

(** [Tag.delete]: the join rows of the tag go with it ([ProductTag.tag],
    [on_delete=CASCADE]). *)
Definition delete_tag (self : Tag.Tag) (db : DB) : Deletion :=
  match Tag.id self with
  | None => Unsaved
  | Some k =>
      Deleted {| categories := categories db;
                 tags := DELETE Tag.id k (tags db);
                 products := products db;
                 product_tags :=
                   filter (fun r => negb (Z.eqb (ProductTag.tag_id r) k))
                          (product_tags db) |}
  end.

(** Every foreign key of every row points to a stored row. *)
Record references_resolve (db : DB) : Prop := {
  parents_exist :
    forall c k, In c (categories db) -> Category.parent_id c = Some k ->
                exists_pk Category.id k (categories db) = true;
  categories_exist :
    forall p k, In p (products db) -> Product.category_id p = Some k ->
                exists_pk Category.id k (categories db) = true;
  tagged_products_exist :
    forall r, In r (product_tags db) ->
              exists_pk Product.pk (ProductTag.product_id r) (products db)
              = true;
  tagging_tags_exist :
    forall r, In r (product_tags db) ->
              exists_pk Tag.id (ProductTag.tag_id r) (tags db) = true
}.

End Catalog.

(* ------------------------------------------------------------------ *)
(** ** Sample rows used by the examples *)
(* ------------------------------------------------------------------ *)

Module Examples.

Definition cat_shoes : Category.Category :=
  {| Category.id := Some 1; Category.name := "Shoes";
     Category.slug := "shoes"; Category.parent_id := None |}.

(** A second root category whose slug differs from [cat_shoes] in case
    only. *)
Definition cat_shoes_upper : Category.Category :=
  {| Category.id := Some 2; Category.name := "Shoes";
     Category.slug := "Shoes"; Category.parent_id := None |}.

Definition cat_boots : Category.Category :=
  {| Category.id := Some 2; Category.name := "Boots";
     Category.slug := "boots"; Category.parent_id := Some 1 |}.

(** [cat_boots] edited to be its own parent. *)
Definition cat_boots_self : Category.Category :=
  {| Category.id := Some 2; Category.name := "Boots";
     Category.slug := "boots"; Category.parent_id := Some 2 |}.

(** [Product(name="Red Mug", price=Decimal("12.50"))], not saved yet. *)
Definition red_mug : Product.Product :=
  {| Product.pk := None; Product.category_id := None;
     Product.name := "Red Mug"; Product.slug := "";
     Product.description := ""; Product.price := 1250;
     Product.is_active := true; Product.status := ProductStatus.DRAFT;
     Product.published_at := None; Product.created_at := None;
     Product.updated_at := None |}.

(** The row stored by saving [red_mug] into an empty table at time 10. *)
Definition red_mug_row : Product.Product :=
  {| Product.pk := Some 1; Product.category_id := None;
     Product.name := "Red Mug"; Product.slug := "red-mug";
     Product.description := ""; Product.price := 1250;
     Product.is_active := true; Product.status := ProductStatus.DRAFT;
     Product.published_at := None; Product.created_at := Some 10;
     Product.updated_at := Some 10 |}.

(** A second product whose name differs from "Red Mug" in case only. *)
Definition red_mug_shout (active : bool) : Product.Product :=
  {| Product.pk := None; Product.category_id := None;
     Product.name := "RED MUG"; Product.slug := "";
     Product.description := ""; Product.price := 990;
     Product.is_active := active; Product.status := ProductStatus.DRAFT;
     Product.published_at := None; Product.created_at := None;
     Product.updated_at := None |}.


(** A product whose name has no letter or digit. *)
Definition symbols : Product.Product :=
  {| Product.pk := None; Product.category_id := None;
     Product.name := "!!!"; Product.slug := "";
     Product.description := ""; Product.price := 100;
     Product.is_active := true; Product.status := ProductStatus.DRAFT;
     Product.published_at := None; Product.created_at := None;
     Product.updated_at := None |}.

(** A product without a name. *)
Definition nameless : Product.Product :=
  {| Product.pk := None; Product.category_id := None;
     Product.name := ""; Product.slug := "";
     Product.description := ""; Product.price := 100;
     Product.is_active := true; Product.status := ProductStatus.DRAFT;
     Product.published_at := None; Product.created_at := None;
     Product.updated_at := None |}.

(** A product with a negative price. *)
Definition underpriced : Product.Product :=
  {| Product.pk := None; Product.category_id := None;
     Product.name := "Blue Mug"; Product.slug := "";
     Product.description := ""; Product.price := -1;
     Product.is_active := true; Product.status := ProductStatus.DRAFT;
     Product.published_at := None; Product.created_at := None;
     Product.updated_at := None |}.

(** [red_mug_row] loaded and its slug cleared in memory. *)
Definition red_mug_blank : Product.Product :=
  Product.set_slug "" red_mug_row.

(** [red_mug_row] once published at time 20. *)
Definition red_mug_published : Product.Product :=
  Product.set_updated_at (Some 20)
    (Product.set_published_at (Some 20)
       (Product.set_status ProductStatus.PUBLISHED red_mug_row)).

Definition pt_first : ProductTag.ProductTag :=
  {| ProductTag.id := Some 1; ProductTag.product_id := 7;
     ProductTag.tag_id := 3; ProductTag.weight := 1;
     ProductTag.added_at := Some 100 |}.

(** The same (product, tag) pair again, under a new key. *)
Definition pt_again : ProductTag.ProductTag :=
  {| ProductTag.id := Some 2; ProductTag.product_id := 7;
     ProductTag.tag_id := 3; ProductTag.weight := 5;
     ProductTag.added_at := Some 101 |}.

Definition pt_weightless : ProductTag.ProductTag :=
  {| ProductTag.id := Some 2; ProductTag.product_id := 7;
     ProductTag.tag_id := 4; ProductTag.weight := 0;
     ProductTag.added_at := Some 101 |}.

Definition tag_sale : Tag.Tag :=
  {| Tag.id := Some 1; Tag.name := "Sale"; Tag.slug := "sale" |}.

(** Another tag whose name is "Sale" in capitals. *)
Definition tag_sale_shout : Tag.Tag :=
  {| Tag.id := Some 2; Tag.name := "SALE"; Tag.slug := "sale-2" |}.

Definition tag_new : Tag.Tag :=
  {| Tag.id := Some 2; Tag.name := "New"; Tag.slug := "new" |}.

(** A stored active product whose slug has capital letters. *)
Definition mug_capital_slug : Product.Product :=
  {| Product.pk := Some 1; Product.category_id := None;
     Product.name := "Mug, red"; Product.slug := "Red-Mug";
     Product.description := "A mug."; Product.price := 700;
     Product.is_active := true; Product.status := ProductStatus.DRAFT;
     Product.published_at := None; Product.created_at := Some 5;
     Product.updated_at := Some 5 |}.


Definition blue_mug_row : Product.Product :=
  {| Product.pk := Some 2; Product.category_id := None;
     Product.name := "Blue Mug"; Product.slug := "blue-mug";
     Product.description := "A blue mug."; Product.price := 1300;
     Product.is_active := true; Product.status := ProductStatus.DRAFT;
     Product.published_at := None; Product.created_at := Some 12;
     Product.updated_at := Some 12 |}.

(** [cat_shoes] and [cat_boots] after [cat_shoes] was filed under
    [cat_boots]: each is the parent of the other. *)
Definition cat_shoes_in_boots : Category.Category :=
  {| Category.id := Some 1; Category.name := "Shoes";
     Category.slug := "shoes"; Category.parent_id := Some 2 |}.

(** A third level under [cat_boots]. *)
Definition cat_ankle : Category.Category :=
  {| Category.id := Some 3; Category.name := "Ankle";
     Category.slug := "ankle"; Category.parent_id := Some 2 |}.

(** A sibling of [cat_boots] under [cat_shoes]. *)
Definition cat_sandals : Category.Category :=
  {| Category.id := Some 3; Category.name := "Sandals";
     Category.slug := "sandals"; Category.parent_id := Some 1 |}.

(** A product filed under [cat_boots]. *)
Definition chelsea_boot : Product.Product :=
  {| Product.pk := Some 1; Product.category_id := Some 2;
     Product.name := "Chelsea Boot"; Product.slug := "chelsea-boot";
     Product.description := ""; Product.price := 8900;
     Product.is_active := true; Product.status := ProductStatus.DRAFT;
     Product.published_at := None; Product.created_at := Some 6;
     Product.updated_at := Some 6 |}.

(** [chelsea_boot] tagged "Sale". *)
Definition boot_on_sale : ProductTag.ProductTag :=
  {| ProductTag.id := Some 1; ProductTag.product_id := 1;
     ProductTag.tag_id := 1; ProductTag.weight := 1;
     ProductTag.added_at := Some 7 |}.

Definition shop : Catalog.DB :=
  {| Catalog.categories := [cat_shoes; cat_boots; cat_ankle];
     Catalog.tags := [tag_sale];
     Catalog.products := [chelsea_boot];
     Catalog.product_tags := [boot_on_sale] |}.

End Examples.

(* ------------------------------------------------------------------ *)
(** ** Facts about the storage layer *)
(* ------------------------------------------------------------------ *)

Module StorageFacts.

Lemma value_eqb_sym (a b : Value) : value_eqb a b = value_eqb b a.
Proof.
  destruct a, b; simpl; auto.
  - apply Z.eqb_sym.
  - apply String.eqb_sym.
  - destruct b0, b; reflexivity.
Qed.

Lemma sql_eq_sym (a b : Value) : sql_eq a b = sql_eq b a.
Proof.
  destruct a, b; simpl; auto; f_equal.
  - apply Z.eqb_sym.
  - apply String.eqb_sym.
  - destruct b0, b; reflexivity.
Qed.

Lemma keys_collide_sym (k1 k2 : list Value) :
  keys_collide k1 k2 = keys_collide k2 k1.
Proof.
  revert k2; induction k1 as [|a k1 IH]; intros [|b k2]; simpl; auto.
  rewrite (sql_eq_sym b a), IH. reflexivity.
Qed.

Lemma NoDup_snoc {A} (l : list A) (x : A) :
  NoDup l -> ~ In x l -> NoDup (l ++ [x]).
Proof.
  induction 1 as [|y l Hy Hl IH]; intros Hx; simpl.
  - constructor; [intros [] | constructor].
  - constructor.
    + rewrite in_app_iff. intros [H | [H | []]]; [auto | subst].
      apply Hx. now left.
    + apply IH. intros H. apply Hx. now right.
Qed.

Lemma NoDup_map_filter {Row Key : Type} (key : Row -> Key)
      (keep : Row -> bool) (rows : list Row)
      (Hkeys : NoDup (map key rows)) :
  NoDup (map key (filter keep rows)).
Proof.
  induction rows as [|r rows IH]; simpl in *; [constructor|].
  inversion Hkeys as [|? ? Hfresh Hrest]; subst.
  destruct (keep r); simpl; auto.
  constructor; auto.
  rewrite in_map_iff in *. intros (r' & Hr' & Hin).
  apply Hfresh. exists r'. split; auto.
  apply filter_In in Hin. tauto.
Qed.

Section TableFacts.

Variable Row : Type.
Variable pk_of : Row -> option Z.
Variable constraints : list (Constraint Row).

Lemma conflict_sym (c : Constraint Row) (r q : Row) :
  conflict c r q = conflict c q r.
Proof.
  destruct c as [key cond n | chk n]; simpl; auto.
  rewrite (keys_collide_sym (key r) (key q)).
  destruct (cond r), (cond q); reflexivity.
Qed.

Lemma violated_nil (r : Row) (rest : list Row) :
  violated constraints r rest = [] <->
  forall c, In c constraints -> violates c r rest = false.
Proof.
  unfold violated. induction constraints as [|c cs IH]; simpl.
  - split; [intros _ c [] | reflexivity].
  - destruct (violates c r rest) eqn:E; simpl.
    + split; [discriminate|]. intros H.
      specialize (H c (or_introl eq_refl)). congruence.
    + rewrite IH. split.
      * intros H c' [<- | Hc]; auto.
      * intros H c' Hc. apply H. now right.
Qed.

Lemma violated_In (r : Row) (rest : list Row) (n : string) :
  In n (violated constraints r rest) <->
  exists c, In c constraints /\ constraint_name c = n /\
            violates c r rest = true.
Proof.
  clear pk_of. unfold violated. rewrite in_map_iff. split.
  - intros (c & Hn & Hc). apply filter_In in Hc. exists c. tauto.
  - intros (c & Hc & Hn & Hv). exists c. rewrite filter_In. tauto.
Qed.

Lemma violates_false (c : Constraint Row) (r : Row) (rest : list Row) :
  violates c r rest = false <->
  check_ok c r = true /\ forall q, In q rest -> conflict c r q = false.
Proof.
  unfold violates. rewrite orb_false_iff, negb_false_iff. split.
  - intros [Hc He]. split; auto. intros q Hq.
    destruct (conflict c r q) eqn:E; auto.
    assert (existsb (conflict c r) rest = true)
      by (apply existsb_exists; eauto).
    congruence.
  - intros [Hc Hq]. split; auto.
    destruct (existsb (conflict c r) rest) eqn:E; auto.
    apply existsb_exists in E. destruct E as (q & Hin & Hcf).
    rewrite (Hq q Hin) in Hcf. discriminate.
Qed.

Lemma has_pk_true (k : Z) (r : Row) :
  has_pk pk_of k r = true <-> pk_of r = Some k.
Proof.
  unfold has_pk. destruct (pk_of r) as [k'|].
  - rewrite Z.eqb_eq. split; congruence.
  - split; discriminate.
Qed.

Lemma has_pk_false (k : Z) (r : Row) :
  has_pk pk_of k r = false <-> pk_of r <> Some k.
Proof.
  rewrite <- has_pk_true. destruct (has_pk pk_of k r); split; congruence.
Qed.

Lemma exists_pk_false (k : Z) (tbl : list Row) :
  exists_pk pk_of k tbl = false <-> ~ In (Some k) (map pk_of tbl).
Proof.
  unfold exists_pk. induction tbl as [|r tbl IH]; simpl.
  - tauto.
  - rewrite orb_false_iff, IH, has_pk_false. tauto.
Qed.

Lemma exists_pk_find (k : Z) (tbl : list Row) :
  exists_pk pk_of k tbl = true <->
  exists old, find_pk pk_of k tbl = Some old.
Proof.
  unfold exists_pk, find_pk. induction tbl as [|r tbl IH]; simpl.
  - split; [discriminate | intros [? ?]; discriminate].
  - destruct (has_pk pk_of k r); simpl; [|exact IH].
    split; eauto.
Qed.

Lemma find_pk_In (k : Z) (tbl : list Row) (old : Row) :
  find_pk pk_of k tbl = Some old -> In old tbl /\ pk_of old = Some k.
Proof.
  unfold find_pk. intros H. apply find_some in H.
  now rewrite has_pk_true in H.
Qed.

Lemma In_others (k : Z) (tbl : list Row) (q : Row) :
  In q (others pk_of k tbl) <-> In q tbl /\ pk_of q <> Some k.
Proof.
  unfold others. rewrite filter_In, negb_true_iff, has_pk_false. tauto.
Qed.

Lemma In_replace_pk (k : Z) (r : Row) (tbl : list Row) (q : Row) :
  In q (replace_pk pk_of k r tbl) ->
  q = r \/ (In q tbl /\ pk_of q <> Some k).
Proof.
  unfold replace_pk. rewrite in_map_iff. intros (x & Hx & Hin).
  destruct (has_pk pk_of k x) eqn:E; [left; congruence|].
  right. subst x. now rewrite has_pk_false in E.
Qed.

Lemma map_pk_replace (k : Z) (r : Row) (tbl : list Row) :
  pk_of r = Some k ->
  map pk_of (replace_pk pk_of k r tbl) = map pk_of tbl.
Proof.
  intros Hr. unfold replace_pk. rewrite map_map. apply map_ext_in.
  intros x _. destruct (has_pk pk_of k x) eqn:E; auto.
  apply has_pk_true in E. congruence.
Qed.

Lemma next_pk_above (tbl : list Row) (r : Row) (k : Z) :
  In r tbl -> pk_of r = Some k -> k < next_pk pk_of tbl.
Proof.
  intros Hin Hk. unfold next_pk.
  enough (k <= fold_right (fun r m => match pk_of r with
                                      | Some k => Z.max k m
                                      | None => m
                                      end) 0 tbl) by lia.
  induction tbl as [|x tbl IH]; simpl; [destruct Hin|].
  destruct Hin as [-> | Hin].
  - rewrite Hk. lia.
  - specialize (IH Hin). destruct (pk_of x); lia.
Qed.

Lemma next_pk_fresh (tbl : list Row) :
  exists_pk pk_of (next_pk pk_of tbl) tbl = false.
Proof.
  apply exists_pk_false. rewrite in_map_iff. intros (r & Hk & Hin).
  pose proof (next_pk_above tbl r _ Hin Hk). lia.
Qed.

(** The shape of an accepted INSERT. *)
Lemma INSERT_Ok (r : Row) (tbl tbl' : list Row) :
  INSERT pk_of constraints r tbl = Ok tbl' <->
  exists k, pk_of r = Some k /\ exists_pk pk_of k tbl = false /\
            violated constraints r tbl = [] /\ tbl' = tbl ++ [r].
Proof.
  unfold INSERT. destruct (pk_of r) as [k|].
  - destruct (exists_pk pk_of k tbl) eqn:Ex.
    + split; [discriminate | intros (k' & [= <-] & ? & _); congruence].
    + destruct (violated constraints r tbl) eqn:E.
      * split.
        -- intros [= <-]. exists k. auto.
        -- intros (? & _ & _ & _ & ->). reflexivity.
      * split; [discriminate | intros (? & _ & _ & ? & _); congruence].
  - split; [discriminate | intros (? & ? & _); congruence].
Qed.

(** The shape of an accepted UPDATE that matched a row. *)
Lemma UPDATE_Ok (r : Row) (tbl tbl' : list Row) :
  UPDATE pk_of constraints r tbl = Ok (Some tbl') <->
  exists k, pk_of r = Some k /\ exists_pk pk_of k tbl = true /\
            violated constraints r (others pk_of k tbl) = [] /\
            tbl' = replace_pk pk_of k r tbl.
Proof.
  unfold UPDATE. destruct (pk_of r) as [k|].
  - destruct (exists_pk pk_of k tbl) eqn:Ex.
    + destruct (violated constraints r (others pk_of k tbl)) eqn:E.
      * split.
        -- intros [= <-]. exists k. auto.
        -- intros (k' & [= <-] & _ & _ & ->). reflexivity.
      * split; [discriminate|].
        intros (k' & [= <-] & _ & H & _). congruence.
    + split; [discriminate | intros (k' & [= <-] & ? & _); congruence].
  - split; [discriminate | intros (? & ? & _); congruence].
Qed.

Lemma consistent_empty : consistent pk_of constraints [].
Proof.
  constructor; simpl; try tauto. constructor.
Qed.

Lemma consistent_step (tbl tbl' : list Row) :
  consistent pk_of constraints tbl ->
  step pk_of constraints tbl tbl' ->
  consistent pk_of constraints tbl'.
Proof.
  intros [Hset Hnd Hchk Huq] Hstep.
  destruct Hstep as [r tbl tbl' H | r tbl tbl' H | k tbl].
  - apply INSERT_Ok in H. destruct H as (k & Hk & Hfresh & Hv & ->).
    rewrite violated_nil in Hv.
    constructor.
    + intros q. rewrite in_app_iff. intros [Hq | [<- | []]]; auto.
      congruence.
    + rewrite map_app. simpl. apply NoDup_snoc; auto.
      rewrite Hk. now apply exists_pk_false.
    + intros c q Hc. rewrite in_app_iff. intros [Hq | [<- | []]]; auto.
      apply (proj1 (violates_false c r tbl)); auto.
    + intros c x y Hc. rewrite !in_app_iff.
      intros [Hx | [<- | []]] [Hy | [<- | []]] Hne; auto.
      * rewrite conflict_sym.
        apply (proj1 (violates_false c r tbl)); auto.
      * apply (proj1 (violates_false c r tbl)); auto.
      * congruence.
  - apply UPDATE_Ok in H. destruct H as (k & Hk & Hex & Hv & ->).
    rewrite violated_nil in Hv.
    constructor.
    + intros q Hq. apply In_replace_pk in Hq.
      destruct Hq as [-> | [Hq _]]; auto. congruence.
    + now rewrite map_pk_replace.
    + intros c q Hc Hq. apply In_replace_pk in Hq.
      destruct Hq as [-> | [Hq _]]; auto.
      apply (proj1 (violates_false c r (others pk_of k tbl))); auto.
    + intros c x y Hc Hx Hy Hne.
      apply In_replace_pk in Hx. apply In_replace_pk in Hy.
      destruct Hx as [-> | [Hx Hxk]], Hy as [-> | [Hy Hyk]]; auto.
      * congruence.
      * apply (proj1 (violates_false c r (others pk_of k tbl))); auto.
        now apply In_others.
      * rewrite conflict_sym.
        apply (proj1 (violates_false c r (others pk_of k tbl))); auto.
        now apply In_others.
  - unfold DELETE. constructor.
    + intros q Hq. apply In_others in Hq. apply Hset. tauto.
    + now apply NoDup_map_filter.
    + intros c q Hc Hq. apply In_others in Hq. apply Hchk; tauto.
    + intros c x y Hc Hx Hy. apply In_others in Hx. apply In_others in Hy.
      apply Huq; tauto.
Qed.

(** Every table built by accepted writes satisfies the declared
    constraints. *)
Lemma reachable_consistent (tbl : list Row) :
  reachable pk_of constraints tbl -> consistent pk_of constraints tbl.
Proof.
  induction 1 as [|tbl tbl' _ IH Hstep].
  - apply consistent_empty.
  - eapply consistent_step; eauto.
Qed.

End TableFacts.

End StorageFacts.

Import StorageFacts.

(* ------------------------------------------------------------------ *)
(** ** Constraints of the three tables *)
(* ------------------------------------------------------------------ *)

Lemma NoDup_map_inj {Row Key : Type} (key : Row -> Key) (rows : list Row)
      (r q : Row) :
  NoDup (map key rows) -> In r rows -> In q rows -> key r = key q -> r = q.
Proof.
  induction rows as [|a rows IH]; simpl; [tauto|].
  intros Hnd Hr Hq Hkey. inversion Hnd as [|? ? Ha Hrest]; subst.
  destruct Hr as [-> | Hr], Hq as [-> | Hq]; auto.
  - exfalso. apply Ha. rewrite Hkey. now apply in_map.
  - exfalso. apply Ha. rewrite <- Hkey. now apply in_map.
Qed.

(** In a consistent table two different rows have different keys. *)
Lemma consistent_distinct_pk {Row} (pk_of : Row -> option Z) cs tbl r q :
  consistent pk_of cs tbl -> In r tbl -> In q tbl -> r <> q ->
  pk_of r <> pk_of q.
Proof.
  intros H Hr Hq Hne Heq. apply Hne.
  eapply NoDup_map_inj; eauto. apply (pks_distinct _ _ _ _ H).
Qed.

(** A row that breaks one declared constraint is never accepted. *)
Lemma violating_row_rejected {Row} (pk_of : Row -> option Z) cs c r :
  In c cs ->
  (forall rest, violates c r rest = true \/
                exists q, In q rest /\ conflict c r q = true) ->
  forall tbl,
    (forall tbl', INSERT pk_of cs r tbl <> Ok tbl') /\
    (forall tbl', UPDATE pk_of cs r tbl <> Ok (Some tbl')).
Proof.
  intros Hc Hbad tbl.
  assert (Hv : forall rest, violates c r rest = true).
  { intros rest. destruct (Hbad rest) as [H | (q & Hq & Hcf)]; auto.
    unfold violates. apply orb_true_iff. right.
    apply existsb_exists. eauto. }
  split; intros tbl' H.
  - apply INSERT_Ok in H. destruct H as (k & _ & _ & Hnil & _).
    rewrite violated_nil in Hnil. specialize (Hnil c Hc).
    rewrite Hv in Hnil. discriminate.
  - apply UPDATE_Ok in H. destruct H as (k & _ & _ & Hnil & _).
    rewrite violated_nil in Hnil. specialize (Hnil c Hc).
    rewrite Hv in Hnil. discriminate.
Qed.

Section CategoryConstraints.

Import Category.

Lemma cat_no_self_parent_ok (c : Category) :
  check_ok cat_no_self_parent c = true <->
  parent_id c = None \/ parent_id c <> id c.
Proof.
  unfold cat_no_self_parent; simpl.
  destruct (parent_id c) as [p|], (id c) as [i|]; simpl.
  - destruct (Z.eqb_spec p i); simpl.
    + subst. split; [discriminate | intros [H | H]; congruence].
    + split; auto. intros _. right. congruence.
  - split; auto. intros _. right. discriminate.
  - split; auto.
  - split; auto.
Qed.

(** C7. No stored category is its own parent: in every table built by
    accepted writes each row has no parent or a parent other than itself,
    and a row whose parent is itself is rejected by INSERT and by UPDATE,
    on any table, because it breaks [cat_no_self_parent]. *)
Theorem category_never_own_parent :
  (forall tbl, persisted tbl ->
     forall c, In c tbl -> parent_id c = None \/ parent_id c <> id c) /\
  (forall c tbl, parent_id c <> None -> parent_id c = id c ->
     (forall tbl', insert c tbl <> Ok tbl') /\
     (forall tbl', update c tbl <> Ok (Some tbl')) /\
     (forall rest, In "cat_no_self_parent" (violated constraints c rest))).
Proof.
  split.
  - intros tbl Hreach c Hin.
    apply reachable_consistent in Hreach.
    apply cat_no_self_parent_ok.
    apply (checks_hold _ _ _ _ Hreach); auto.
    unfold cat_no_self_parent, constraints; simpl; auto.
  - intros c tbl Hsome Hself.
    assert (Hbad : check_ok cat_no_self_parent c = false).
    { destruct (check_ok cat_no_self_parent c) eqn:E; auto.
      apply cat_no_self_parent_ok in E. destruct E; congruence. }
    assert (Hv : forall rest, violates cat_no_self_parent c rest = true).
    { intros rest. unfold violates. rewrite Hbad. reflexivity. }
    assert (Hc : In cat_no_self_parent constraints)
      by (unfold cat_no_self_parent, constraints; simpl; auto).
    destruct (violating_row_rejected id constraints cat_no_self_parent c
                Hc (fun rest => or_introl (Hv rest)) tbl) as [Hi Hu].
    split; [exact Hi|]. split; [exact Hu|].
    intros rest. rewrite violated_In. exists cat_no_self_parent.
    split; [exact Hc|]. split; [reflexivity | apply Hv].
Qed.

Lemma category_never_own_parent_witness :
  (parent_id Examples.cat_boots = None \/
   parent_id Examples.cat_boots <> id Examples.cat_boots) /\
  update Examples.cat_boots_self [Examples.cat_shoes; Examples.cat_boots]
  <> Ok (Some [Examples.cat_shoes; Examples.cat_boots_self]).
Proof.
  split.
  - apply (proj1 category_never_own_parent
                 [Examples.cat_shoes; Examples.cat_boots]).
    + apply reach_step with (tbl := [Examples.cat_shoes]).
      * apply reach_step with (tbl := []); [apply reach_empty|].
        apply step_insert with (r := Examples.cat_shoes). reflexivity.
      * apply step_insert with (r := Examples.cat_boots). reflexivity.
    + simpl; auto.
  - apply (proj2 category_never_own_parent Examples.cat_boots_self
                 [Examples.cat_shoes; Examples.cat_boots]).
    + discriminate.
    + reflexivity.
Defined.

(** X19. Siblings under one stored parent have different slugs, whatever
    the letter case.  The index key is [(LOWER(slug), parent_id)]; keys with a
    NULL [parent_id] never collide, which is why the statement needs a
    parent. *)
Lemma category_sibling_slugs_differ (tbl : list Category) (a b : Category)
      (p : Z) :
  persisted tbl -> In a tbl -> In b tbl -> a <> b ->
  parent_id a = Some p -> parent_id b = Some p ->
  Text.Lower (slug a) <> Text.Lower (slug b).
Proof.
  intros Hreach Ha Hb Hne Hpa Hpb Heq.
  apply reachable_consistent in Hreach.
  pose proof (consistent_distinct_pk _ _ _ _ _ Hreach Ha Hb Hne) as Hpk.
  pose proof (uniques_hold _ _ _ _ Hreach cat_unique_slug_per_parent_ci
                a b) as H.
  unfold cat_unique_slug_per_parent_ci, constraints in H; simpl in H.
  specialize (H (or_introl eq_refl) Ha Hb Hpk).
  rewrite Hpa, Hpb, Heq in H. simpl in H.
  rewrite String.eqb_refl, Z.eqb_refl in H. discriminate.
Qed.

Lemma category_sibling_slugs_differ_witness :
  persisted [Examples.cat_shoes; Examples.cat_boots; Examples.cat_sandals]
  /\
  Text.Lower (slug Examples.cat_boots)
  <> Text.Lower (slug Examples.cat_sandals).
Proof.
  assert (Hreach : persisted [Examples.cat_shoes; Examples.cat_boots;
                              Examples.cat_sandals]).
  { apply reach_step with (tbl := [Examples.cat_shoes; Examples.cat_boots]).
    - apply reach_step with (tbl := [Examples.cat_shoes]).
      + apply reach_step with (tbl := []); [apply reach_empty|].
        apply step_insert with (r := Examples.cat_shoes). reflexivity.
      + apply step_insert with (r := Examples.cat_boots). reflexivity.
    - apply step_insert with (r := Examples.cat_sandals). reflexivity. }
  split; [exact Hreach|].
  apply (category_sibling_slugs_differ _ Examples.cat_boots
           Examples.cat_sandals 1 Hreach); simpl; auto.
  discriminate.
Defined.

(** C5.  Two categories without a parent whose slugs differ only in
    case are both accepted: the table holding both is built by two
    accepted INSERTs, the rows are different, have the same (absent)
    parent and the same lower-cased slug. *)
Theorem category_root_slugs_coincide :
  insert Examples.cat_shoes [] = Ok [Examples.cat_shoes] /\
  insert Examples.cat_shoes_upper [Examples.cat_shoes]
  = Ok [Examples.cat_shoes; Examples.cat_shoes_upper] /\
  persisted [Examples.cat_shoes; Examples.cat_shoes_upper] /\
  Examples.cat_shoes <> Examples.cat_shoes_upper /\
  parent_id Examples.cat_shoes = parent_id Examples.cat_shoes_upper /\
  Text.Lower (slug Examples.cat_shoes)
  = Text.Lower (slug Examples.cat_shoes_upper).
Proof.
  repeat split; try reflexivity.
  - apply reach_step with (tbl := [Examples.cat_shoes]).
    + apply reach_step with (tbl := []); [apply reach_empty|].
      apply step_insert with (r := Examples.cat_shoes). reflexivity.
    + apply step_insert with (r := Examples.cat_shoes_upper). reflexivity.
  - discriminate.
Qed.

End CategoryConstraints.

Section ProductTagConstraints.

Import ProductTag.

Lemma In_constraints_unique : In product_tag_unique constraints.
Proof. unfold constraints; simpl; auto. Qed.

Lemma In_constraints_weight : In producttag_weight_gte_1 constraints.
Proof. unfold constraints; simpl; auto. Qed.

Lemma weight_check_ok (r : ProductTag) :
  check_ok producttag_weight_gte_1 r = true <-> 1 <= weight r.
Proof.
  unfold producttag_weight_gte_1; simpl.
  destruct (Z.leb_spec 1 (weight r)); split; auto; try lia; discriminate.
Qed.

Lemma pair_conflict (r q : ProductTag) :
  conflict product_tag_unique r q = true <->
  (product_id r, tag_id r) = (product_id q, tag_id q).
Proof.
  unfold product_tag_unique; simpl.
  destruct (Z.eqb_spec (product_id r) (product_id q)) as [Hp | Hp];
    destruct (Z.eqb_spec (tag_id r) (tag_id q)) as [Ht | Ht]; simpl;
    split; try discriminate; try congruence.
Qed.

(** C6. An INSERT of a [ProductTag] row with weight 0 (or any weight
    below 1) is rejected, an INSERT of a row whose (product, tag) pair is
    already in the table is rejected, and in every table built by accepted
    writes each row has weight at least 1 and two different rows have
    different (product, tag) pairs. *)
Theorem producttag_weight_and_pair_enforced :
  (forall r tbl, weight r < 1 -> forall tbl', insert r tbl <> Ok tbl') /\
  (forall r q tbl,
     In q tbl -> (product_id q, tag_id q) = (product_id r, tag_id r) ->
     forall tbl', insert r tbl <> Ok tbl') /\
  (forall tbl, persisted tbl ->
     (forall r, In r tbl -> 1 <= weight r) /\
     (forall r q, In r tbl -> In q tbl -> r <> q ->
                  (product_id r, tag_id r) <> (product_id q, tag_id q))).
Proof.
  split; [|split].
  - intros r tbl Hw tbl' H.
    apply INSERT_Ok in H. destruct H as (k & _ & _ & Hnil & _).
    rewrite violated_nil in Hnil.
    specialize (Hnil _ In_constraints_weight).
    apply violates_false in Hnil. destruct Hnil as [Hok _].
    apply weight_check_ok in Hok. lia.
  - intros r q tbl Hq Hpair tbl' H.
    apply INSERT_Ok in H. destruct H as (k & _ & _ & Hnil & _).
    rewrite violated_nil in Hnil.
    specialize (Hnil _ In_constraints_unique).
    apply violates_false in Hnil. destruct Hnil as [_ Hfree].
    specialize (Hfree q Hq).
    assert (conflict product_tag_unique r q = true)
      by (apply pair_conflict; congruence).
    congruence.
  - intros tbl Hreach. apply reachable_consistent in Hreach. split.
    + intros r Hr. apply weight_check_ok.
      apply (checks_hold _ _ _ _ Hreach); auto using In_constraints_weight.
    + intros r q Hr Hq Hne Hpair.
      pose proof (consistent_distinct_pk _ _ _ _ _ Hreach Hr Hq Hne) as Hpk.
      pose proof (uniques_hold _ _ _ _ Hreach _ r q In_constraints_unique
                    Hr Hq Hpk) as Hfree.
      apply pair_conflict in Hpair. congruence.
Qed.

Lemma producttag_weight_and_pair_enforced_witness :
  insert Examples.pt_weightless [Examples.pt_first]
  <> Ok [Examples.pt_first; Examples.pt_weightless] /\
  insert Examples.pt_again [Examples.pt_first]
  <> Ok [Examples.pt_first; Examples.pt_again] /\
  1 <= weight Examples.pt_first.
Proof.
  split; [|split].
  - apply (proj1 producttag_weight_and_pair_enforced
                 Examples.pt_weightless [Examples.pt_first]).
    reflexivity.
  - apply (proj1 (proj2 producttag_weight_and_pair_enforced)
                 Examples.pt_again Examples.pt_first [Examples.pt_first]).
    + simpl; auto.
    + reflexivity.
  - apply (proj2 (proj2 producttag_weight_and_pair_enforced)
                 [Examples.pt_first]).
    + apply reach_step with (tbl := []); [apply reach_empty|].
      apply step_insert with (r := Examples.pt_first). reflexivity.
    + simpl; auto.
Defined.

End ProductTagConstraints.

(* ------------------------------------------------------------------ *)
(** ** Query sets *)
(* ------------------------------------------------------------------ *)

(** C10. Every product returned by [published()] has status
    ["published"] and is active, and is also returned by [active()] on the
    same query set. *)
Theorem published_within_active (qs : list Product.Product)
        (p : Product.Product) :
  In p (Product.published qs) ->
  Product.status p = ProductStatus.PUBLISHED /\
  Product.is_active p = true /\
  In p (Product.active qs).
Proof.
  unfold Product.published, Product.active. rewrite !filter_In.
  intros [Hin Hf]. apply andb_true_iff in Hf. destruct Hf as [Hs Ha].
  apply String.eqb_eq in Hs. apply Bool.eqb_prop in Ha.
  repeat split; auto. rewrite Ha. reflexivity.
Qed.

(* ------------------------------------------------------------------ *)
(** ** The slugs tried by [_ensure_slug] *)
(* ------------------------------------------------------------------ *)

Lemma to_int_printable (z : Z) :
  Z.to_int z <> Decimal.Pos Decimal.Nil /\
  Z.to_int z <> Decimal.Neg Decimal.Nil.
Proof.
  destruct z as [|p|p]; simpl; split; try discriminate;
    intros [= H]; exact (DecimalPos.Unsigned.to_uint_nonnil p H).
Qed.

(** [str] prints different numbers differently. *)
Lemma str_inj (a b : Z) : Text.str a = Text.str b -> a = b.
Proof.
  unfold Text.str. intros H.
  destruct (to_int_printable a) as [Ha1 Ha2].
  destruct (to_int_printable b) as [Hb1 Hb2].
  pose proof (NilZero.isi _ Ha1 Ha2) as Ea.
  pose proof (NilZero.isi _ Hb1 Hb2) as Eb.
  rewrite H in Ea. rewrite Ea in Eb.
  apply DecimalZ.to_int_inj. congruence.
Qed.

Lemma append_cancel (base x y : string) :
  (base ++ x)%string = (base ++ y)%string -> x = y.
Proof.
  induction base as [|c base IH]; simpl; auto.
  intros [= H]. auto.
Qed.

Lemma append_grows (base x : string) :
  base = (base ++ x)%string -> x = "".
Proof.
  induction base as [|c base IH]; simpl; auto.
  intros [= H]. auto.
Qed.

Lemma candidate_inj (base : string) (a b : nat) :
  Product.candidate base a = Product.candidate base b -> a = b.
Proof.
  unfold Product.candidate, Text.fmt_base_i.
  destruct a as [|a], b as [|b]; auto.
  - intros H. apply append_grows in H. discriminate.
  - intros H. symmetry in H. apply append_grows in H. discriminate.
  - intros H. apply append_cancel in H. injection H as H.
    apply str_inj in H. lia.
Qed.

Lemma candidate_nonempty (base : string) (k : nat) :
  base <> "" -> Product.candidate base k <> "".
Proof.
  intros Hb. destruct k as [|k]; simpl; auto.
  unfold Text.fmt_base_i. destruct base; [congruence | discriminate].
Qed.

Lemma NoDup_candidates (base : string) (n : nat) :
  NoDup (map (Product.candidate base) (seq 0 n)).
Proof.
  apply Injective_map_NoDup.
  - intros a b. apply candidate_inj.
  - apply seq_NoDup.
Qed.

Section SlugSearch.

Import Product.

Variable objects : list Product.
Variable self_pk : option Z.

Lemma exists__true (qs : list Product) :
  exists_ qs = true <-> exists q, In q qs.
Proof.
  destruct qs as [|q qs]; simpl.
  - split; [discriminate | intros [q []]].
  - split; eauto.
Qed.

Lemma In_exclude_pk (qs : list Product) (q : Product) :
  In q (exclude_pk self_pk qs) <-> In q qs /\ other_than_self self_pk q.
Proof.
  unfold exclude_pk, other_than_self. destruct self_pk as [k|].
  - rewrite filter_In, negb_true_iff, has_pk_false. tauto.
  - tauto.
Qed.

Lemma slug_in_use_true (s : string) :
  slug_in_use objects self_pk s = true <->
  exists q, In q objects /\ slug q = s /\ is_active q = true /\
            other_than_self self_pk q.
Proof.
  unfold slug_in_use. rewrite exists__true. split.
  - intros (q & Hq). apply In_exclude_pk in Hq. destruct Hq as [Hq Ho].
    apply filter_In in Hq. destruct Hq as [Hin Hf].
    apply andb_true_iff in Hf. destruct Hf as [Hs Ha].
    apply String.eqb_eq in Hs. apply Bool.eqb_prop in Ha.
    exists q. auto.
  - intros (q & Hin & Hs & Ha & Ho). exists q.
    apply In_exclude_pk. split; auto.
    apply filter_In. split; auto.
    rewrite Hs, Ha, String.eqb_refl. reflexivity.
Qed.

(** A slug that is not in use differs from the slug of every active row
    with another key. *)
Lemma slug_free_unique (s : string) (q : Product) :
  slug_in_use objects self_pk s = false ->
  In q objects -> is_active q = true -> other_than_self self_pk q ->
  slug q <> s.
Proof.
  intros Hfree Hin Ha Hpk Hs.
  assert (slug_in_use objects self_pk s = true); [|congruence].
  apply slug_in_use_true. exists q. repeat split; auto.
Qed.

(** Pigeonhole: the first [length objects + 1] candidates cannot all be
    in use. *)
Lemma some_candidate_free (base : string) :
  exists k, (k <= List.length objects)%nat /\
            slug_in_use objects self_pk (candidate base k) = false.
Proof.
  set (n := List.length objects).
  assert (Hdec : forall m,
             (exists k, (k < m)%nat /\
                slug_in_use objects self_pk (candidate base k) = false) \/
             (forall k, (k < m)%nat ->
                slug_in_use objects self_pk (candidate base k) = true)).
  { induction m as [|m [(k & Hk & Hf) | Hall]].
    - right. intros k Hk. lia.
    - left. exists k. split; auto.
    - destruct (slug_in_use objects self_pk (candidate base m)) eqn:E.
      + right. intros k Hk.
        destruct (Nat.eq_dec k m) as [-> | Hne]; auto. apply Hall. lia.
      + left. exists m. split; auto. }
  destruct (Hdec (S n)) as [(k & Hk & Hf) | Hall].
  - exists k. split; auto. lia.
  - exfalso.
    assert (Hincl : incl (map (candidate base) (seq 0 (S n)))
                         (map slug objects)).
    { intros s Hs. apply in_map_iff in Hs. destruct Hs as (k & <- & Hk).
      apply in_seq in Hk. specialize (Hall k ltac:(lia)).
      apply slug_in_use_true in Hall. destruct Hall as (q & Hq & Hs & _).
      apply in_map_iff. eauto. }
    apply NoDup_incl_length in Hincl; [|apply NoDup_candidates].
    rewrite !length_map, length_seq in Hincl. unfold n in Hincl. lia.
Qed.

(** What the loop returns, started at the [j]-th candidate. *)
Lemma loop_returns (base : string) (fuel : nat) :
  forall (j : nat) (s : string),
    _ensure_slug_loop fuel objects self_pk base (candidate base j)
                      (Z.of_nat j + 2) = Some s ->
    exists k, (j <= k < j + fuel)%nat /\ s = candidate base k /\
              slug_in_use objects self_pk s = false /\
              forall m, (j <= m < k)%nat ->
                        slug_in_use objects self_pk (candidate base m) = true.
Proof.
  induction fuel as [|fuel IH]; intros j s; simpl; [discriminate|].
  destruct (slug_in_use objects self_pk (candidate base j)) eqn:E.
  - replace (Z.of_nat j + 2 + 1) with (Z.of_nat (S j) + 2) by lia.
    change (Text.fmt_base_i base (Z.of_nat j + 2))
      with (candidate base (S j)).
    intros H. apply IH in H. destruct H as (k & Hk & Hs & Hf & Hall).
    exists k. repeat split; auto; try lia.
    intros m Hm. destruct (Nat.eq_dec m j) as [-> | Hne]; auto.
    apply Hall. lia.
  - intros [= <-]. exists j. repeat split; auto; lia.
Qed.

(** The loop stops as soon as the fuel reaches a free candidate. *)
Lemma loop_stops (base : string) (fuel : nat) :
  forall (j k : nat),
    (j <= k < j + fuel)%nat ->
    slug_in_use objects self_pk (candidate base k) = false ->
    exists s, _ensure_slug_loop fuel objects self_pk base (candidate base j)
                                (Z.of_nat j + 2) = Some s.
Proof.
  induction fuel as [|fuel IH]; intros j k Hk Hf; simpl; [lia|].
  destruct (slug_in_use objects self_pk (candidate base j)) eqn:E;
    [|eauto].
  replace (Z.of_nat j + 2 + 1) with (Z.of_nat (S j) + 2) by lia.
  change (Text.fmt_base_i base (Z.of_nat j + 2)) with (candidate base (S j)).
  apply (IH (S j) k); auto.
  destruct (Nat.eq_dec k j) as [-> | Hne]; [congruence | lia].
Qed.

(** More fuel does not change a result. *)
Lemma loop_fuel_mono (base slug0 : string) (fuel extra : nat) :
  forall (i : Z) (s : string),
    _ensure_slug_loop fuel objects self_pk base slug0 i = Some s ->
    _ensure_slug_loop (fuel + extra) objects self_pk base slug0 i = Some s.
Proof.
  revert slug0. induction fuel as [|fuel IH]; intros slug0 i s; simpl;
    [discriminate|].
  destruct (slug_in_use objects self_pk slug0); auto.
Qed.

(** The bound used by [_ensure_slug] is enough: the loop run from
    [(base, 2)] ends, and it ends on the first free candidate. *)
Lemma loop_terminates (base : string) :
  exists s,
    _ensure_slug_loop (S (List.length objects)) objects self_pk base base 2
    = Some s /\
    first_free objects self_pk base s.
Proof.
  destruct (some_candidate_free base) as (k & Hk & Hf).
  destruct (loop_stops base (S (List.length objects)) 0 k ltac:(lia) Hf)
    as (s & Hs).
  exists s. split; [exact Hs|].
  apply loop_returns in Hs. destruct Hs as (k' & _ & -> & Hfree & Hall).
  exists k'. repeat split; auto. intros j Hj. apply Hall. lia.
Qed.

End SlugSearch.

(* ------------------------------------------------------------------ *)
(** ** [Product.save] and [Product.publish] *)
(* ------------------------------------------------------------------ *)

Section ProductSave.

Import Product.

Variable slugify : string -> string.

Local Arguments mentions : simpl never.
Local Arguments merge_fields : simpl never.
Local Arguments _ensure_slug : simpl never.

Lemma truthy_false (s : string) : Text.truthy s = false <-> s = "".
Proof.
  unfold Text.truthy. rewrite negb_false_iff. apply String.eqb_eq.
Qed.

Lemma truthy_true (s : string) : Text.truthy s = true <-> s <> "".
Proof.
  unfold Text.truthy. rewrite negb_true_iff. apply String.eqb_neq.
Qed.

Lemma slug_base_nonempty (self : Product) : slug_base slugify self <> "".
Proof.
  unfold slug_base, Text.str_or.
  destruct (Text.truthy (slugify (name self))) eqn:E.
  - now apply truthy_true.
  - discriminate.
Qed.

Lemma slug_base_slugified (self : Product) :
  slugify (name self) <> "" -> slug_base slugify self = slugify (name self).
Proof.
  intros H. unfold slug_base, Text.str_or.
  apply truthy_true in H. now rewrite H.
Qed.

Lemma slug_base_default (self : Product) :
  slugify (name self) = "" -> slug_base slugify self = "product".
Proof.
  intros H. unfold slug_base, Text.str_or.
  apply truthy_false in H. now rewrite H.
Qed.

(** The two ways [_ensure_slug] can end. *)
Lemma _ensure_slug_cases (self : Product) (objects : list Product) :
  ((slug self <> "" \/ name self = "") /\
   _ensure_slug slugify self objects = self) \/
  (slug self = "" /\ name self <> "" /\
   exists s, _ensure_slug slugify self objects = set_slug s self /\
             first_free objects (pk self) (slug_base slugify self) s).
Proof.
  unfold _ensure_slug. cbv zeta.
  destruct (loop_terminates objects (pk self) (slug_base slugify self))
    as (s & -> & Hff).
  destruct (Text.truthy (slug self)) eqn:Es; cbn [orb negb].
  - left. split; auto. left. now apply truthy_true.
  - destruct (Text.truthy (name self)) eqn:En; cbn [orb negb].
    + right. apply truthy_false in Es. apply truthy_true in En.
      repeat split; auto. exists s. split; auto.
    + left. split; auto. right. now apply truthy_false.
Qed.

Lemma first_free_nonempty objects self_pk base s :
  base <> "" -> first_free objects self_pk base s -> s <> "".
Proof.
  intros Hb (k & -> & _). now apply candidate_nonempty.
Qed.

Lemma first_free_unused objects self_pk base s q :
  first_free objects self_pk base s ->
  In q objects -> is_active q = true -> other_than_self self_pk q ->
  slug q <> s.
Proof.
  intros (k & _ & Hfree & _). now apply slug_free_unique.
Qed.

(** [save] is [Model.save] on the instance prepared by [_ensure_slug]
    and the publication stamp. *)
Lemma save_prepared (update_fields : option (list string)) (now : Z)
      (self : Product) (objects : list Product) :
  exists self2,
    save slugify update_fields now self objects
    = Model_save update_fields now self2 objects /\
    pk self2 = pk self /\ category_id self2 = category_id self /\
    name self2 = name self /\
    slug self2 = slug (_ensure_slug slugify self objects) /\
    description self2 = description self /\ price self2 = price self /\
    is_active self2 = is_active self /\ status self2 = status self /\
    created_at self2 = created_at self /\
    published_at self2
    = (if String.eqb (status self) ProductStatus.PUBLISHED
       then match published_at self with
            | Some t => Some t
            | None => Some now
            end
       else published_at self).
Proof.
  unfold save.
  set (self1 := _ensure_slug slugify self objects).
  assert (H1 : pk self1 = pk self /\ category_id self1 = category_id self /\
               name self1 = name self /\ description self1 = description self
               /\ price self1 = price self /\
               is_active self1 = is_active self /\
               status self1 = status self /\
               created_at self1 = created_at self /\
               published_at self1 = published_at self).
  { unfold self1.
    destruct (_ensure_slug_cases self objects)
      as [[_ ->] | (_ & _ & s & -> & _)]; simpl; repeat split; auto. }
  destruct H1 as (Hpk & Hcat & Hn & Hd & Hp & Ha & Hs & Hc & Hpub).
  eexists. split; [reflexivity|].
  rewrite Hs, Hpub.
  destruct (String.eqb (status self) ProductStatus.PUBLISHED);
    destruct (published_at self); simpl; repeat split; auto.
Qed.

(** What [Model.save] does to the instance: only [pk], [created_at] and
    [updated_at] can change. *)
Lemma Model_save_instance (update_fields : option (list string)) (now : Z)
      (self : Product) (objects : list Product) :
  let self' := fst (Model_save update_fields now self objects) in
  category_id self' = category_id self /\ name self' = name self /\
  slug self' = slug self /\ description self' = description self /\
  price self' = price self /\ is_active self' = is_active self /\
  status self' = status self /\ published_at self' = published_at self /\
  (update_fields <> None ->
   pk self' = pk self /\ created_at self' = created_at self).
Proof.
  unfold Model_save.
  destruct update_fields as [[|f fields]|]; simpl.
  - repeat split; auto.
  - destruct (pk self) as [k|] eqn:Hk; simpl; [|repeat split; auto].
    set (self1 := if mentions (f :: fields) "updated_at"
                  then set_updated_at (Some now) self else self).
    assert (H1 : self1 = self \/ self1 = set_updated_at (Some now) self)
      by (unfold self1; destruct (mentions _ _); auto).
    destruct (find_pk pk k objects) as [old|];
      [destruct (update _ objects) as [[t'|]|e]|]; simpl;
      destruct H1 as [-> | ->]; simpl; repeat split; auto.
  - destruct (pk self) as [k|] eqn:Hk; simpl.
    + destruct (update _ objects) as [[t'|]|e]; simpl;
        repeat split; auto; congruence.
    + destruct (insert _ objects) as [t'|e]; simpl;
        repeat split; auto; congruence.
Qed.

(** Rows of the table after [Model.save] whose key is not the key of the
    saved instance were there before. *)
Lemma Model_save_other_rows (update_fields : option (list string))
      (now : Z) (self : Product) (objects : list Product) (q : Product) :
  let result := Model_save update_fields now self objects in
  In q (table_after (snd result) objects) ->
  pk q <> pk (fst result) -> In q objects.
Proof.
  unfold Model_save.
  destruct update_fields as [[|f fields]|]; simpl; auto.
  - destruct (pk self) as [k|] eqn:Hk; simpl; auto.
    set (self1 := if mentions (f :: fields) "updated_at"
                  then set_updated_at (Some now) self else self).
    assert (H1 : pk self1 = Some k)
      by (unfold self1; destruct (mentions _ _); auto).
    destruct (find_pk pk k objects) as [old|] eqn:Hf; simpl; auto.
    destruct (update _ objects) as [[t'|]|e] eqn:Hu; simpl; auto.
    apply UPDATE_Ok in Hu. destruct Hu as (k' & Hk' & _ & _ & ->).
    simpl in Hk'. apply find_pk_In in Hf. destruct Hf as [_ Hold].
    assert (k' = k) by congruence. subst k'.
    intros Hq Hne. apply In_replace_pk in Hq.
    destruct Hq as [-> | [Hq _]]; auto.
    simpl in Hne. congruence.
  - destruct (pk self) as [k|] eqn:Hk; simpl.
    + destruct (update _ objects) as [[t'|]|e] eqn:Hu; simpl; auto.
      * apply UPDATE_Ok in Hu. destruct Hu as (k' & Hk' & _ & _ & ->).
        simpl in Hk'. intros Hq Hne. apply In_replace_pk in Hq.
        destruct Hq as [-> | [Hq _]]; auto. simpl in Hne. congruence.
      * destruct (insert _ objects) as [t'|e'] eqn:Hi; simpl; auto.
        apply INSERT_Ok in Hi. destruct Hi as (k' & _ & _ & _ & ->).
        intros Hq Hne. apply in_app_iff in Hq.
        destruct Hq as [Hq | [<- | []]]; auto. simpl in Hne. congruence.
    + destruct (insert _ objects) as [t'|e'] eqn:Hi; simpl; auto.
      apply INSERT_Ok in Hi. destruct Hi as (k' & _ & _ & _ & ->).
      intros Hq Hne. apply in_app_iff in Hq.
      destruct Hq as [Hq | [<- | []]]; auto. simpl in Hne. congruence.
Qed.

(** An accepted [Model.save] with [update_fields] rewrites the stored
    row of the instance with the listed columns. *)
Lemma Model_save_fields_Ok (f : string) (fields : list string) (now : Z)
      (self : Product) (objects objects' : list Product) :
  let result := Model_save (Some (f :: fields)) now self objects in
  snd result = Ok objects' ->
  exists k old,
    pk self = Some k /\ find_pk pk k objects = Some old /\
    objects' = replace_pk pk k
                 (merge_fields (f :: fields) (fst result) old) objects.
Proof.
  unfold Model_save.
  destruct (pk self) as [k|] eqn:Hk; simpl; [|discriminate].
  set (self1 := if mentions (f :: fields) "updated_at"
                then set_updated_at (Some now) self else self).
  destruct (find_pk pk k objects) as [old|] eqn:Hf; simpl; [|discriminate].
  destruct (update _ objects) as [[t'|]|e] eqn:Hu; simpl;
    try discriminate.
  intros [= <-]. exists k, old. repeat split; auto.
  apply UPDATE_Ok in Hu. destruct Hu as (k' & Hk' & _ & _ & ->).
  apply find_pk_In in Hf. destruct Hf as [_ Hold].
  unfold merge_fields in Hk'. simpl in Hk'. congruence.
Qed.

(** An accepted [Model.save] is one accepted write, or none. *)
Lemma Model_save_step (update_fields : option (list string)) (now : Z)
      (self : Product) (objects objects' : list Product) :
  snd (Model_save update_fields now self objects) = Ok objects' ->
  objects' = objects \/ step pk constraints objects objects'.
Proof.
  unfold Model_save.
  destruct update_fields as [[|f fields]|]; simpl.
  - intros [= <-]. auto.
  - destruct (pk self) as [k|]; simpl; [|discriminate].
    destruct (find_pk pk k objects) as [old|]; simpl; [|discriminate].
    destruct (update _ objects) as [[t'|]|e] eqn:Hu; simpl;
      try discriminate.
    intros [= <-]. right. eapply step_update. exact Hu.
  - destruct (pk self) as [k|]; simpl.
    + destruct (update _ objects) as [[t'|]|e] eqn:Hu; simpl;
        try discriminate.
      * intros [= <-]. right. eapply step_update. exact Hu.
      * intros Hi. right. eapply step_insert. exact Hi.
    + destruct (insert _ objects) as [t'|e] eqn:Hi; simpl;
        try discriminate.
      intros [= <-]. right. eapply step_insert. exact Hi.
Qed.

(** Tables written through [save] stay within the tables built by
    accepted writes. *)
Lemma save_persisted (update_fields : option (list string)) (now : Z)
      (self : Product) (objects objects' : list Product) :
  persisted objects ->
  snd (save slugify update_fields now self objects) = Ok objects' ->
  persisted objects'.
Proof.
  intros Hreach Hs.
  destruct (save_prepared update_fields now self objects)
    as (self2 & Heq & _).
  rewrite Heq in Hs. apply Model_save_step in Hs.
  destruct Hs as [-> | Hstep]; auto.
  eapply reach_step; eauto.
Qed.

(** The outcome of a full [Model.save]: some row with the columns of the
    instance is checked against the rows with another key. *)
Lemma Model_save_full_outcome (now : Z) (self : Product)
      (objects : list Product) :
  exists row rest,
    name row = name self /\ slug row = slug self /\
    price row = price self /\ is_active row = is_active self /\
    (forall q, In q objects -> pk q <> pk self -> In q rest) /\
    match violated constraints row rest with
    | [] => exists objects',
              snd (Model_save None now self objects) = Ok objects'
    | v => snd (Model_save None now self objects)
           = Raise (IntegrityError v)
    end.
Proof.
  unfold Model_save. destruct (pk self) as [k|] eqn:Hk.
  - destruct (exists_pk pk k objects) eqn:Hex.
    + exists (set_updated_at (Some now) self), (others pk k objects).
      repeat split; auto.
      * intros q Hq Hne. now apply In_others.
      * unfold update, UPDATE. simpl. rewrite Hk, Hex.
        destruct (violated _ _ _); simpl; eauto.
    + exists (set_created_at (Some now) (set_updated_at (Some now) self)),
             objects.
      repeat split; auto.
      unfold update, UPDATE, insert, INSERT. simpl. rewrite Hk, Hex.
      destruct (violated _ _ _); simpl; eauto.
  - exists (set_pk (Some (next_pk pk objects))
              (set_updated_at (Some now) (set_created_at (Some now) self))),
           objects.
    repeat split; auto.
    unfold insert, INSERT. simpl. rewrite next_pk_fresh.
    destruct (violated _ _ _); simpl; eauto.
Qed.

Lemma In_price_check : In product_price_gte_0 constraints.
Proof. unfold constraints; simpl; auto. Qed.


Lemma price_check_ok (p : Product) :
  check_ok product_price_gte_0 p = true <-> 0 <= price p.
Proof.
  unfold product_price_gte_0; simpl.
  destruct (Z.leb_spec 0 (price p)); split; auto; try lia; discriminate.
Qed.


Lemma negative_price_violates (p : Product) (rest : list Product) :
  price p < 0 -> In "product_price_gte_0" (violated constraints p rest).
Proof.
  intros Hneg. rewrite violated_In. exists product_price_gte_0.
  split; [apply In_price_check|]. split; [reflexivity|].
  unfold violates.
  destruct (check_ok product_price_gte_0 p) eqn:E; auto.
  apply price_check_ok in E. lia.
Qed.


(** An inactive row can only break the price check. *)
Lemma inactive_violations (p : Product) (rest : list Product) (n : string) :
  is_active p = false -> In n (violated constraints p rest) ->
  n = "product_price_gte_0" /\ price p < 0.
Proof.
  intros Hp Hn. apply violated_In in Hn.
  destruct Hn as (c & Hc & <- & Hv).
  unfold constraints in Hc; simpl in Hc.
  destruct Hc as [<- | [<- | [<- | []]]].
  - split; [reflexivity|].
    unfold violates in Hv.
    destruct (check_ok product_price_gte_0 p) eqn:E.
    + simpl in Hv. clear E.
      induction rest; simpl in Hv; [discriminate | auto].
    + destruct (Z.ltb_spec (price p) 0); auto.
      assert (check_ok product_price_gte_0 p = true)
        by (apply price_check_ok; lia).
      congruence.
  - exfalso. unfold violates in Hv. simpl in Hv.
    apply existsb_exists in Hv. destruct Hv as (q & _ & Hcf).
    unfold product_name_ci_unique_active in Hcf; simpl in Hcf.
    rewrite Hp in Hcf. discriminate.
  - exfalso. unfold violates in Hv. simpl in Hv.
    apply existsb_exists in Hv. destruct Hv as (q & _ & Hcf).
    unfold product_slug_ci_unique_active in Hcf; simpl in Hcf.
    rewrite Hp in Hcf. discriminate.
Qed.

(** [Model.save] never changes a key that is already set. *)
Lemma Model_save_keeps_pk (update_fields : option (list string)) (now : Z)
      (self : Product) (objects : list Product) (k : Z) :
  pk self = Some k ->
  pk (fst (Model_save update_fields now self objects)) = Some k.
Proof.
  intros Hk. unfold Model_save.
  destruct update_fields as [[|f fields]|]; simpl; auto; rewrite Hk.
  - destruct (mentions (f :: fields) "updated_at");
      destruct (find_pk pk k objects) as [old|];
      try destruct (update _ objects) as [[t'|]|e]; simpl; auto.
  - destruct (update _ objects) as [[t'|]|e]; simpl; auto.
Qed.

(** C1 (amended). For a product with a blank slug and a non-empty name,
    [save] assigns to [slug] the first string of the sequence [base],
    [base-2], [base-3], ... that no other active row uses, where [base] is
    the slugified name, or ["product"] when the slugified name is empty.
    The slug is then non-empty, and no active row with another key holds
    it in the table after the call. *)
Theorem save_assigns_first_free_slug
        (update_fields : option (list string)) (now : Z) (self : Product)
        (objects : list Product) :
  slug self = "" -> name self <> "" ->
  let result := save slugify update_fields now self objects in
  first_free objects (pk self) (slug_base slugify self)
             (slug (fst result)) /\
  (slugify (name self) <> "" ->
   slug_base slugify self = slugify (name self)) /\
  (slugify (name self) = "" -> slug_base slugify self = "product") /\
  slug (fst result) <> "" /\
  (forall q, In q (table_after (snd result) objects) ->
             is_active q = true -> pk q <> pk (fst result) ->
             slug q <> slug (fst result)).
Proof.
  intros Hslug Hname result.
  destruct (save_prepared update_fields now self objects)
    as (self2 & Heq & Hpk & _ & _ & Hs2 & _).
  destruct (_ensure_slug_cases self objects)
    as [[[H | H] _] | (_ & _ & s & Hens & Hff)]; try contradiction.
  rewrite Hens in Hs2. simpl in Hs2.
  pose proof (Model_save_instance update_fields now self2 objects) as Hinst.
  cbv zeta in Hinst. destruct Hinst as (_ & _ & Hs' & _).
  assert (Hres : slug (fst result) = s)
    by (unfold result; rewrite Heq; congruence).
  rewrite Hres.
  split; [exact Hff|].
  split; [apply slug_base_slugified|].
  split; [apply slug_base_default|].
  split; [exact (first_free_nonempty objects (pk self) _ s
                   (slug_base_nonempty self) Hff)|].
  intros q Hq Ha Hne.
  unfold result in Hq, Hne. rewrite Heq in Hq, Hne.
  pose proof (Model_save_other_rows update_fields now self2 objects q
                Hq Hne) as Hin.
  eapply first_free_unused; eauto.
  unfold other_than_self. destruct (pk self) as [k|] eqn:Hk; auto.
  rewrite (Model_save_keeps_pk update_fields now self2 objects k) in Hne;
    congruence.
Qed.

(** C3 (amended). With a blank slug, [save] leaves the slug blank when
    the name is empty; the default base ["product"] is used when the name
    is not empty but its slugified form is. *)
Theorem save_default_slug_base
        (update_fields : option (list string)) (now : Z) (self : Product)
        (objects : list Product) :
  slug self = "" ->
  let self' := fst (save slugify update_fields now self objects) in
  (name self = "" -> slug self' = "") /\
  (name self <> "" -> slugify (name self) = "" ->
   first_free objects (pk self) "product" (slug self')).
Proof.
  intros Hslug self'.
  destruct (save_prepared update_fields now self objects)
    as (self2 & Heq & _ & _ & _ & Hs2 & _).
  pose proof (Model_save_instance update_fields now self2 objects) as Hinst.
  cbv zeta in Hinst. destruct Hinst as (_ & _ & Hs' & _).
  assert (Hres : slug self' = slug (_ensure_slug slugify self objects))
    by (unfold self'; rewrite Heq; congruence).
  rewrite Hres. split.
  - intros Hname.
    destruct (_ensure_slug_cases self objects)
      as [[_ ->] | (_ & H & _)]; [exact Hslug | contradiction].
  - intros Hname Hempty.
    destruct (_ensure_slug_cases self objects)
      as [[[H | H] _] | (_ & _ & s & -> & Hff)]; try contradiction.
    simpl. now rewrite <- (slug_base_default self Hempty).
Qed.


(** C8. No stored product has a negative price: every row of a table
    built by accepted writes has a price of at least 0, a row with a
    negative price is rejected by INSERT and by UPDATE, and a full [save]
    of a product with a negative price raises an integrity error naming
    [product_price_gte_0]. *)
Theorem product_price_never_negative :
  (forall tbl, persisted tbl -> forall p, In p tbl -> 0 <= price p) /\
  (forall p tbl, price p < 0 ->
     (forall tbl', insert p tbl <> Ok tbl') /\
     (forall tbl', update p tbl <> Ok (Some tbl'))) /\
  (forall now p tbl, price p < 0 ->
     exists v, snd (save slugify None now p tbl) = Raise (IntegrityError v)
               /\ In "product_price_gte_0" v).
Proof.
  split; [|split].
  - intros tbl Hreach p Hp. apply reachable_consistent in Hreach.
    apply price_check_ok.
    apply (checks_hold _ _ _ _ Hreach); auto using In_price_check.
  - intros p tbl Hneg.
    apply (violating_row_rejected pk constraints product_price_gte_0 p
             In_price_check).
    intros rest. left. unfold violates.
    destruct (check_ok product_price_gte_0 p) eqn:E; auto.
    apply price_check_ok in E. lia.
  - intros now p tbl Hneg.
    destruct (save_prepared None now p tbl)
      as (self2 & Heq & _ & _ & _ & _ & _ & Hp2 & _).
    destruct (Model_save_full_outcome now self2 tbl)
      as (row & rest & _ & _ & Hrp & _ & _ & Hout).
    assert (Hin : In "product_price_gte_0" (violated constraints row rest))
      by (apply negative_price_violates; lia).
    rewrite Heq.
    destruct (violated constraints row rest) as [|n0 v0] eqn:Ev;
      [destruct Hin|].
    exists (n0 :: v0). auto.
Qed.

Lemma In_replace_pk_new (k : Z) (r old : Product) (tbl : list Product) :
  In old tbl -> pk old = Some k -> In r (replace_pk pk k r tbl).
Proof.
  intros Hin Hk. unfold replace_pk. apply in_map_iff. exists old.
  split; auto. apply has_pk_true in Hk. now rewrite Hk.
Qed.

Lemma Forall2_map_each {A B} (R : A -> B -> Prop) (g : A -> B)
      (l : list A) :
  (forall x, In x l -> R x (g x)) -> Forall2 R l (map g l).
Proof.
  induction l as [|x l IH]; simpl; intros H; constructor; auto.
Qed.

(** The instance on which [publish] calls [save], and how the call
    ends, when the product is not published yet. *)
Lemma publish_unpublished (now : Z) (self : Product)
      (objects : list Product) :
  status self <> ProductStatus.PUBLISHED ->
  exists self2,
    publish slugify now self objects
    = Model_save (Some ["status"; "published_at"; "updated_at"]) now self2
                 objects /\
    pk self2 = pk self /\ category_id self2 = category_id self /\
    name self2 = name self /\
    slug self2 = slug (_ensure_slug slugify self objects) /\
    description self2 = description self /\ price self2 = price self /\
    is_active self2 = is_active self /\
    created_at self2 = created_at self /\
    status self2 = ProductStatus.PUBLISHED /\
    published_at self2 = Some (match published_at self with
                               | Some t => t
                               | None => now
                               end).
Proof.
  intros Hst. unfold publish.
  apply String.eqb_neq in Hst. rewrite Hst. cbn [negb].
  set (self1 := set_published_at _ (set_status _ self)).
  destruct (save_prepared (Some ["status"; "published_at"; "updated_at"])
              now self1 objects)
    as (self2 & Heq & Hpk & Hcat & Hn & Hs & Hd & Hp & Ha & Hstatus &
        Hc & Hpub).
  exists self2. split; [exact Heq|].
  assert (Hslug : _ensure_slug slugify self1 objects
                  = set_published_at (published_at self1)
                      (set_status (status self1)
                         (_ensure_slug slugify self objects))).
  { unfold _ensure_slug. unfold self1 at 1 2 3 4 5; cbn [slug name pk
      set_published_at set_status]. unfold slug_base.
    cbn [name set_published_at set_status].
    destruct (Text.truthy (slug self) || negb (Text.truthy (name self)))%bool.
    - unfold self1. destruct self. reflexivity.
    - destruct (_ensure_slug_loop _ _ _ _ _ _);
        unfold self1; destruct self; reflexivity. }
  rewrite Hslug in Hs.
  unfold self1 in *. simpl in *.
  repeat split; auto.
  rewrite Hpub. destruct (published_at self); reflexivity.
Qed.

(** C2. [publish] on a published product changes neither the instance
    nor the table.  Otherwise the instance gets status ["published"], and
    its [published_at] is the current time only when it was null; when the
    write is accepted the stored row of the product holds the same two
    values.  A second [publish], at any later time, changes nothing. *)
Theorem publish_first_wins (now : Z) (self : Product)
        (objects : list Product) :
  let result := publish slugify now self objects in
  (status self = ProductStatus.PUBLISHED -> result = (self, Ok objects)) /\
  (status self <> ProductStatus.PUBLISHED ->
   status (fst result) = ProductStatus.PUBLISHED /\
   published_at (fst result) = Some (match published_at self with
                                     | Some t => t
                                     | None => now
                                     end) /\
   (forall objects', snd result = Ok objects' ->
      (exists row, In row objects' /\ pk row = pk self) /\
      (forall row, In row objects' -> pk row = pk self ->
                   status row = ProductStatus.PUBLISHED /\
                   published_at row = published_at (fst result)))) /\
  (forall later objects2,
     publish slugify later (fst result) objects2
     = (fst result, Ok objects2)).
Proof.
  intros result.
  assert (Hnoop : forall later p tbl,
             status p = ProductStatus.PUBLISHED ->
             publish slugify later p tbl = (p, Ok tbl)).
  { intros later p tbl Hp. unfold publish. rewrite Hp. reflexivity. }
  assert (Hun : status self <> ProductStatus.PUBLISHED ->
                status (fst result) = ProductStatus.PUBLISHED /\
                published_at (fst result)
                = Some (match published_at self with
                        | Some t => t
                        | None => now
                        end) /\
                exists self2,
                  result = Model_save
                             (Some ["status"; "published_at"; "updated_at"])
                             now self2 objects /\
                  pk self2 = pk self).
  { intros Hst.
    destruct (publish_unpublished now self objects Hst)
      as (self2 & Heq & Hpk & _ & _ & _ & _ & _ & _ & _ & Hstatus & Hpub).
    pose proof (Model_save_instance
                  (Some ["status"; "published_at"; "updated_at"])
                  now self2 objects) as Hinst.
    cbv zeta in Hinst.
    destruct Hinst as (_ & _ & _ & _ & _ & _ & Hs' & Hp' & _).
    unfold result. rewrite Heq.
    split; [congruence|]. split; [congruence|]. exists self2. auto. }
  split; [|split].
  - intros Hst. apply Hnoop. exact Hst.
  - intros Hst. destruct (Hun Hst) as (Hs & Hp & self2 & Heq & Hpk).
    split; [exact Hs|]. split; [exact Hp|].
    intros objects' Hok. rewrite Heq in Hok.
    apply Model_save_fields_Ok in Hok.
    destruct Hok as (k & old & Hk & Hfind & ->).
    apply find_pk_In in Hfind. destruct Hfind as [Hold Holdk].
    rewrite <- Heq. split.
    + eexists. split; [eapply In_replace_pk_new; eauto|].
      unfold merge_fields; simpl. congruence.
    + intros row Hrow Hrk. apply In_replace_pk in Hrow.
      destruct Hrow as [-> | [_ Hne]]; [|congruence].
      split; [|reflexivity]. exact Hs.
  - intros later objects2. apply Hnoop.
    destruct (String.eqb_spec (status self) ProductStatus.PUBLISHED)
      as [Hst | Hst].
    + unfold result. rewrite (Hnoop now self objects Hst). exact Hst.
    + apply (Hun Hst).
Qed.

(** C9 (amended). [publish] leaves [pk], [category], [name],
    [description], [price], [is_active] and [created_at] of the instance
    as they were.  The [slug] of the instance is kept too, unless it is
    blank while the name is not and the product is not published yet: then
    the [save] inside [publish] fills it with the first free slug, on the
    instance only.  In the table, when the write is accepted, every row
    keeps all columns other than [status], [published_at] and
    [updated_at], and rows of other products are untouched. *)
Theorem publish_frame (now : Z) (self : Product) (objects : list Product) :
  let result := publish slugify now self objects in
  let self' := fst result in
  (pk self' = pk self /\ category_id self' = category_id self /\
   name self' = name self /\ description self' = description self /\
   price self' = price self /\ is_active self' = is_active self /\
   created_at self' = created_at self) /\
  (slug self <> "" \/ name self = "" \/
   status self = ProductStatus.PUBLISHED -> slug self' = slug self) /\
  (slug self = "" -> name self <> "" ->
   status self <> ProductStatus.PUBLISHED ->
   first_free objects (pk self) (slug_base slugify self) (slug self')) /\
  (NoDup (map pk objects) ->
   forall objects', snd result = Ok objects' ->
     Forall2 (fun q q' => same_frame q q' /\ (pk q <> pk self -> q' = q))
             objects objects').
Proof.
  intros result self'.
  destruct (String.eqb_spec (status self) ProductStatus.PUBLISHED)
    as [Hst | Hst].
  - assert (Hres : result = (self, Ok objects)).
    { unfold result, publish. rewrite Hst. reflexivity. }
    unfold self'. rewrite Hres. simpl.
    split; [repeat split; auto|]. split; [auto|].
    split; [intros _ _ H; contradiction|].
    intros _ objects' [= <-].
    rewrite <- (map_id objects) at 2. apply Forall2_map_each.
    intros q _. unfold same_frame. repeat split; auto.
  - destruct (publish_unpublished now self objects Hst)
      as (self2 & Heq & Hpk & Hcat & Hn & Hs & Hd & Hp & Ha & Hc & _).
    pose proof (Model_save_instance
                  (Some ["status"; "published_at"; "updated_at"])
                  now self2 objects) as Hinst.
    cbv zeta in Hinst.
    destruct Hinst as (Hcat' & Hn' & Hs' & Hd' & Hp' & Ha' & _ & _ & Hkeep).
    destruct (Hkeep ltac:(discriminate)) as [Hpk' Hc'].
    unfold self', result. rewrite Heq.
    split; [repeat split; congruence|].
    split; [|split].
    + intros Hcase.
      destruct (_ensure_slug_cases self objects)
        as [[_ Hsame] | (H1 & H2 & _)].
      * rewrite Hs', Hs, Hsame. reflexivity.
      * destruct Hcase as [H | [H | H]]; contradiction.
    + intros Hblank Hname _.
      destruct (_ensure_slug_cases self objects)
        as [[[H | H] _] | (_ & _ & s & Hens & Hff)]; try contradiction.
      rewrite Hs', Hs, Hens. exact Hff.
    + intros Hnd objects' Hok.
      apply Model_save_fields_Ok in Hok.
      destruct Hok as (k & old & Hk & Hfind & ->).
      apply find_pk_In in Hfind. destruct Hfind as [Hold Holdk].
      apply Forall2_map_each. intros q Hq.
      destruct (has_pk pk k q) eqn:Hq_k.
      * apply has_pk_true in Hq_k.
        assert (q = old)
          by (eapply NoDup_map_inj; eauto; congruence).
        subst q. split.
        -- unfold same_frame, merge_fields. simpl. repeat split; auto.
        -- intros Hne. congruence.
      * split; [unfold same_frame; repeat split; auto | auto].
Qed.

End ProductSave.

(* ------------------------------------------------------------------ *)
(** ** The results at concrete products *)
(* ------------------------------------------------------------------ *)

(** The example of the specification: the first "Red Mug" gets the slug
    [red-mug]; a second active one is given [red-mug-2] and is then
    rejected for its name. *)
Example red_mug_saved :
  Product.save Text.slugify_ascii None 10 Examples.red_mug []
  = (Examples.red_mug_row, Ok [Examples.red_mug_row]).
Proof. reflexivity. Qed.

Example red_mug_saved_twice :
  let result := Product.save Text.slugify_ascii None 11 Examples.red_mug
                             [Examples.red_mug_row] in
  Product.slug (fst result) = "red-mug-2" /\
  snd result = Raise (IntegrityError ["product_name_ci_unique_active"]).
Proof. split; reflexivity. Qed.

Lemma save_assigns_first_free_slug_witness :
  Product.slug (Examples.red_mug_shout false) = "" /\
  Product.name (Examples.red_mug_shout false) <> "" /\
  Product.slug
    (fst (Product.save Text.slugify_ascii None 11
                       (Examples.red_mug_shout false)
                       [Examples.red_mug_row])) <> "".
Proof.
  split; [reflexivity|]. split; [discriminate|].
  destruct (save_assigns_first_free_slug Text.slugify_ascii None 11
              (Examples.red_mug_shout false) [Examples.red_mug_row]
              eq_refl ltac:(discriminate))
    as (_ & _ & _ & Hne & _).
  exact Hne.
Defined.

(** C1, as stated, fails for a name that slugifies to the empty string:
    the slug assigned to "!!!" does not belong to the sequence built on the
    slugified name. *)
Lemma symbols_slug_not_from_slugified_name :
  Product.slug Examples.symbols = "" /\
  Product.name Examples.symbols <> "" /\
  Product.slug (fst (Product.save Text.slugify_ascii None 10
                                  Examples.symbols [])) = "product" /\
  ~ Product.first_free [] (Product.pk Examples.symbols)
      (Text.slugify_ascii (Product.name Examples.symbols))
      (Product.slug (fst (Product.save Text.slugify_ascii None 10
                                       Examples.symbols []))).
Proof.
  split; [reflexivity|]. split; [discriminate|]. split; [reflexivity|].
  intros (k & Hk & _). destruct k as [|k]; vm_compute in Hk; discriminate.
Defined.

Lemma save_default_slug_base_witness :
  Product.slug Examples.symbols = "" /\
  Product.name Examples.symbols <> "" /\
  Text.slugify_ascii (Product.name Examples.symbols) = "" /\
  Product.first_free [] (Product.pk Examples.symbols) "product"
    (Product.slug (fst (Product.save Text.slugify_ascii None 10
                                     Examples.symbols []))).
Proof.
  split; [reflexivity|]. split; [discriminate|]. split; [reflexivity|].
  apply (proj2 (save_default_slug_base Text.slugify_ascii None 10
                  Examples.symbols [] eq_refl)).
  - discriminate.
  - reflexivity.
Defined.

(** C3, as stated, fails: with an empty name the slug stays blank. *)
Lemma nameless_slug_stays_blank :
  Product.name Examples.nameless = "" /\
  Product.slug Examples.nameless = "" /\
  Product.slug (fst (Product.save Text.slugify_ascii None 10
                                  Examples.nameless [])) = "" /\
  ~ (exists k,
       Product.slug (fst (Product.save Text.slugify_ascii None 10
                                       Examples.nameless []))
       = Product.candidate "product" k).
Proof.
  split; [reflexivity|]. split; [reflexivity|]. split; [reflexivity|].
  intros (k & Hk). symmetry in Hk. revert Hk.
  apply candidate_nonempty. discriminate.
Defined.



Lemma product_price_never_negative_witness :
  Product.price Examples.underpriced < 0 /\
  exists v,
    snd (Product.save Text.slugify_ascii None 10 Examples.underpriced
                      [Examples.red_mug_row])
    = Raise (IntegrityError v) /\
    In "product_price_gte_0" v.
Proof.
  split; [reflexivity|].
  apply (proj2 (proj2 (product_price_never_negative Text.slugify_ascii))).
  reflexivity.
Defined.

Lemma publish_first_wins_witness :
  Product.status Examples.red_mug_row <> ProductStatus.PUBLISHED /\
  Product.status
    (fst (Product.publish Text.slugify_ascii 20 Examples.red_mug_row
                          [Examples.red_mug_row]))
  = ProductStatus.PUBLISHED /\
  Product.publish Text.slugify_ascii 30 Examples.red_mug_published
                  [Examples.red_mug_published]
  = (Examples.red_mug_published, Ok [Examples.red_mug_published]).
Proof.
  split; [discriminate|]. split.
  - apply (proj1 (proj2 (publish_first_wins Text.slugify_ascii 20
                           Examples.red_mug_row [Examples.red_mug_row]))).
    discriminate.
  - apply (proj1 (publish_first_wins Text.slugify_ascii 30
                    Examples.red_mug_published
                    [Examples.red_mug_published])).
    reflexivity.
Defined.

Example red_mug_publish :
  Product.publish Text.slugify_ascii 20 Examples.red_mug_row
                  [Examples.red_mug_row]
  = (Examples.red_mug_published, Ok [Examples.red_mug_published]).
Proof. reflexivity. Qed.

(** C9, as stated, fails for the slug of the instance: publishing a
    product whose slug was cleared gives the instance a slug again, while
    the write is accepted and the stored row keeps the slug it had. *)
Lemma publish_fills_blank_slug :
  Product.slug Examples.red_mug_blank = "" /\
  Product.slug
    (fst (Product.publish Text.slugify_ascii 20 Examples.red_mug_blank
                          [Examples.red_mug_row])) = "red-mug" /\
  Product.slug
    (fst (Product.publish Text.slugify_ascii 20 Examples.red_mug_blank
                          [Examples.red_mug_row]))
  <> Product.slug Examples.red_mug_blank /\
  snd (Product.publish Text.slugify_ascii 20 Examples.red_mug_blank
                       [Examples.red_mug_row])
  = Ok [Examples.red_mug_published].
Proof.
  split; [reflexivity|]. split; [reflexivity|].
  split; [discriminate | reflexivity].
Defined.

Lemma publish_frame_witness :
  Product.name
    (fst (Product.publish Text.slugify_ascii 20 Examples.red_mug_row
                          [Examples.red_mug_row]))
  = Product.name Examples.red_mug_row /\
  Product.slug
    (fst (Product.publish Text.slugify_ascii 20 Examples.red_mug_row
                          [Examples.red_mug_row]))
  = Product.slug Examples.red_mug_row /\
  Forall2 (fun q q' => Product.same_frame q q' /\
                       (Product.pk q <> Product.pk Examples.red_mug_row ->
                        q' = q))
          [Examples.red_mug_row] [Examples.red_mug_published].
Proof.
  destruct (publish_frame Text.slugify_ascii 20 Examples.red_mug_row
              [Examples.red_mug_row])
    as ((_ & _ & Hn & _) & Hslug & _ & Hrows).
  split; [exact Hn|]. split.
  - apply Hslug. left. discriminate.
  - apply Hrows.
    + repeat constructor. simpl. tauto.
    + reflexivity.
Defined.

Lemma published_within_active_witness :
  In Examples.red_mug_published
     (Product.published [Examples.red_mug_published]) /\
  In Examples.red_mug_published
     (Product.active [Examples.red_mug_published]).
Proof.
  assert (H : In Examples.red_mug_published
                 (Product.published [Examples.red_mug_published]))
    by (simpl; auto).
  split; [exact H|].
  apply (published_within_active _ _ H).
Defined.

(* ------------------------------------------------------------------ *)
(** ** Uniqueness in [Tag] and among active products *)
(* ------------------------------------------------------------------ *)

(** A unique index on one lower-cased text column: when two rows
    conflict. *)
Lemma lower_text_conflict {Row} (column : Row -> string)
      (cond : Row -> bool) (n : string) (r q : Row) :
  conflict (UniqueConstraint (fun x => [VStr (Text.Lower (column x))])
                             cond n) r q = true <->
  cond r = true /\ cond q = true /\
  Text.Lower (column r) = Text.Lower (column q).
Proof.
  simpl. destruct (cond r), (cond q); simpl;
    try (split; [discriminate | intros (? & ? & _); discriminate]).
  destruct (String.eqb_spec (Text.Lower (column r)) (Text.Lower (column q)));
    split; auto; try discriminate. intros (_ & _ & ?). contradiction.
Qed.

(** A row in conflict with a stored row of another key is refused. *)
Lemma conflicting_row_rejected {Row} (pk_of : Row -> option Z) cs c r q tbl :
  In c cs -> In q tbl -> conflict c r q = true ->
  (forall tbl', INSERT pk_of cs r tbl <> Ok tbl') /\
  (pk_of q <> pk_of r -> forall tbl', UPDATE pk_of cs r tbl <> Ok (Some tbl')).
Proof.
  intros Hc Hq Hcf. split.
  - intros tbl' H. apply INSERT_Ok in H.
    destruct H as (k & _ & _ & Hnil & _).
    rewrite violated_nil in Hnil. specialize (Hnil c Hc).
    apply violates_false in Hnil. destruct Hnil as [_ Hfree].
    rewrite (Hfree q Hq) in Hcf. discriminate.
  - intros Hne tbl' H. apply UPDATE_Ok in H.
    destruct H as (k & Hk & _ & Hnil & _).
    rewrite violated_nil in Hnil. specialize (Hnil c Hc).
    apply violates_false in Hnil. destruct Hnil as [_ Hfree].
    rewrite Hfree in Hcf; [discriminate|].
    apply In_others. split; auto. congruence.
Qed.

Section TagConstraints.

Import Tag.

Lemma In_tag_name_unique : In tag_name_ci_unique constraints.
Proof. unfold constraints; simpl; auto. Qed.

Lemma In_tag_slug_unique : In tag_slug_ci_unique constraints.
Proof. unfold constraints; simpl; auto. Qed.

(** X1. Tags are unique by name and by slug, letter case ignored: two
    different rows of a table built by accepted writes differ in both,
    and a tag whose lower-cased name or slug is that of a stored tag is
    refused by INSERT, and by UPDATE unless that stored tag is the row
    being updated. *)
Theorem tag_name_and_slug_unique :
  (forall tbl a b,
     persisted tbl -> In a tbl -> In b tbl -> a <> b ->
     Text.Lower (name a) <> Text.Lower (name b) /\
     Text.Lower (slug a) <> Text.Lower (slug b)) /\
  (forall t q tbl,
     In q tbl ->
     Text.Lower (name q) = Text.Lower (name t) \/
     Text.Lower (slug q) = Text.Lower (slug t) ->
     (forall tbl', insert t tbl <> Ok tbl') /\
     (id q <> id t -> forall tbl', update t tbl <> Ok (Some tbl'))).
Proof.
  split.
  - intros tbl a b Hreach Ha Hb Hne.
    apply reachable_consistent in Hreach.
    pose proof (consistent_distinct_pk _ _ _ _ _ Hreach Ha Hb Hne) as Hpk.
    split; intros Heq.
    + pose proof (uniques_hold _ _ _ _ Hreach _ a b In_tag_name_unique
                    Ha Hb Hpk) as Hfree.
      assert (conflict tag_name_ci_unique a b = true)
        by (apply lower_text_conflict; auto).
      congruence.
    + pose proof (uniques_hold _ _ _ _ Hreach _ a b In_tag_slug_unique
                    Ha Hb Hpk) as Hfree.
      assert (conflict tag_slug_ci_unique a b = true)
        by (apply lower_text_conflict; auto).
      congruence.
  - intros t q tbl Hq [Hn | Hs].
    + apply (conflicting_row_rejected id constraints tag_name_ci_unique
               t q tbl In_tag_name_unique Hq).
      apply lower_text_conflict; auto.
    + apply (conflicting_row_rejected id constraints tag_slug_ci_unique
               t q tbl In_tag_slug_unique Hq).
      apply lower_text_conflict; auto.
Qed.

Lemma tag_name_and_slug_unique_witness :
  Text.Lower (name Examples.tag_sale) <> Text.Lower (name Examples.tag_new)
  /\
  insert Examples.tag_sale_shout [Examples.tag_sale]
  <> Ok [Examples.tag_sale; Examples.tag_sale_shout].
Proof.
  split.
  - apply (proj1 tag_name_and_slug_unique
                 [Examples.tag_sale; Examples.tag_new]).
    + apply reach_step with (tbl := [Examples.tag_sale]).
      * apply reach_step with (tbl := []); [apply reach_empty|].
        apply step_insert with (r := Examples.tag_sale). reflexivity.
      * apply step_insert with (r := Examples.tag_new). reflexivity.
    + simpl; auto.
    + simpl; auto.
    + discriminate.
  - apply (proj2 tag_name_and_slug_unique Examples.tag_sale_shout
                 Examples.tag_sale [Examples.tag_sale]).
    + simpl; auto.
    + left. reflexivity.
Defined.

End TagConstraints.

Section ActiveProducts.

Import Product.

Variable slugify : string -> string.

Lemma In_slug_unique : In product_slug_ci_unique_active constraints.
Proof. unfold constraints; simpl; auto. Qed.

Lemma active_eqb (p : Product) :
  Bool.eqb (is_active p) true = true <-> is_active p = true.
Proof. destruct (is_active p); simpl; split; auto. Qed.



Lemma duplicate_slug_violates (p q : Product) (rest : list Product) :
  In q rest -> is_active p = true -> is_active q = true ->
  Text.Lower (slug q) = Text.Lower (slug p) ->
  In "product_slug_ci_unique_active" (violated constraints p rest).
Proof.
  intros Hq Hp Ha Hs. rewrite violated_In.
  exists product_slug_ci_unique_active.
  split; [apply In_slug_unique|]. split; [reflexivity|].
  unfold violates. apply orb_true_iff. right. apply existsb_exists.
  exists q. split; auto. apply lower_text_conflict.
  rewrite !active_eqb. auto.
Qed.

(** X3. [_ensure_slug] compares slugs exactly, the constraint compares
    them with letter case ignored: when the slug an active product is
    saved with equals, up to case, the slug of another active row, the
    product is in conflict with that row under
    [product_slug_ci_unique_active] and the full [save] fails with an
    integrity error, whether the slug was typed in or generated. *)
Theorem save_rejects_slug_equal_up_to_case
        (now : Z) (self : Product) (objects : list Product) (q : Product) :
  is_active self = true ->
  In q objects -> is_active q = true -> pk q <> pk self ->
  Text.Lower (slug q)
  = Text.Lower (slug (fst (save slugify None now self objects))) ->
  conflict product_slug_ci_unique_active
           (fst (save slugify None now self objects)) q = true /\
  exists v,
    snd (save slugify None now self objects) = Raise (IntegrityError v).
Proof.
  intros Ha Hq Hqa Hpk Hslug.
  destruct (save_prepared slugify None now self objects)
    as (self2 & Heq & Hpk2 & _ & _ & _ & _ & _ & Ha2 & _).
  pose proof (Model_save_instance None now self2 objects) as Hinst.
  cbv zeta in Hinst. destruct Hinst as (_ & _ & Hs' & _ & _ & Ha' & _).
  destruct (Model_save_full_outcome now self2 objects)
    as (row & rest & _ & Hrs & _ & Hra & Hrest & Hout).
  rewrite Heq in *. split.
  - apply lower_text_conflict. rewrite !active_eqb.
    repeat split; auto; congruence.
  - assert (Hdup : In "product_slug_ci_unique_active"
                      (violated constraints row rest)).
    { apply (duplicate_slug_violates row q rest); auto; try congruence.
      apply Hrest; auto. congruence. }
    destruct (violated constraints row rest) as [|n0 v0] eqn:Ev;
      [destruct Hdup|].
    exists (n0 :: v0). exact Hout.
Qed.

End ActiveProducts.

Lemma save_rejects_slug_equal_up_to_case_witness :
  Product.is_active Examples.red_mug = true /\
  Product.slug
    (fst (Product.save Text.slugify_ascii None 11 Examples.red_mug
                       [Examples.mug_capital_slug])) = "red-mug" /\
  exists v,
    snd (Product.save Text.slugify_ascii None 11 Examples.red_mug
                      [Examples.mug_capital_slug])
    = Raise (IntegrityError v).
Proof.
  split; [reflexivity|]. split; [reflexivity|].
  apply (save_rejects_slug_equal_up_to_case Text.slugify_ascii 11
           Examples.red_mug [Examples.mug_capital_slug]
           Examples.mug_capital_slug).
  - reflexivity.
  - simpl; auto.
  - reflexivity.
  - discriminate.
  - reflexivity.
Defined.

(* ------------------------------------------------------------------ *)
(** ** More on [save]: termination, frame, lookup, kept tables *)
(* ------------------------------------------------------------------ *)

Lemma find_pk_replace {Row} (pk_of : Row -> option Z) (k : Z) (r : Row)
      (tbl : list Row) :
  pk_of r = Some k -> exists_pk pk_of k tbl = true ->
  find_pk pk_of k (replace_pk pk_of k r tbl) = Some r.
Proof.
  intros Hr. apply has_pk_true in Hr.
  unfold find_pk, replace_pk, exists_pk.
  induction tbl as [|x tbl IH]; simpl; [discriminate|].
  destruct (has_pk pk_of k x) eqn:Hx; simpl.
  - intros _. now rewrite Hr.
  - rewrite Hx. exact IH.
Qed.

Lemma find_pk_appended {Row} (pk_of : Row -> option Z) (k : Z) (r : Row)
      (tbl : list Row) :
  pk_of r = Some k -> exists_pk pk_of k tbl = false ->
  find_pk pk_of k (tbl ++ [r]) = Some r.
Proof.
  intros Hr. apply has_pk_true in Hr.
  unfold find_pk, exists_pk.
  induction tbl as [|x tbl IH]; simpl.
  - intros _. now rewrite Hr.
  - destruct (has_pk pk_of k x); simpl; [discriminate | exact IH].
Qed.

Lemma In_replace_pk_kept {Row} (pk_of : Row -> option Z) (k : Z) (r q : Row)
      (tbl : list Row) :
  In q tbl -> pk_of q <> Some k -> In q (replace_pk pk_of k r tbl).
Proof.
  intros Hq Hne. unfold replace_pk. apply in_map_iff. exists q.
  split; auto. apply has_pk_false in Hne. now rewrite Hne.
Qed.

Section SaveExtras.

Import Product.

Variable slugify : string -> string.

Local Arguments mentions : simpl never.
Local Arguments merge_fields : simpl never.
Local Arguments _ensure_slug : simpl never.

(** X4. The [while] loop of [_ensure_slug] ends: with any bound above
    the number of rows it returns, and what it returns is the first free
    slug of the sequence, so the bound does not matter.  The slug is
    [base] or [base-n] with [n] at most the number of rows plus one. *)
Theorem ensure_slug_loop_ends (objects : list Product) (self_pk : option Z)
        (base : string) (fuel : nat) :
  (List.length objects < fuel)%nat ->
  exists s,
    _ensure_slug_loop fuel objects self_pk base base 2 = Some s /\
    first_free objects self_pk base s /\
    (exists k, (k <= List.length objects)%nat /\ s = candidate base k) /\
    _ensure_slug_loop (S (List.length objects)) objects self_pk base base 2
    = Some s.
Proof.
  intros Hfuel.
  destruct (some_candidate_free objects self_pk base) as (k & Hk & Hfree).
  destruct (loop_stops objects self_pk base (S (List.length objects)) 0 k
              ltac:(lia) Hfree) as (s & Hs).
  exists s.
  replace fuel
    with (S (List.length objects) + (fuel - S (List.length objects)))%nat
    by lia.
  split; [now apply loop_fuel_mono|].
  pose proof (loop_returns objects self_pk base _ 0 s Hs)
    as (k' & Hk' & -> & Hf & Hall).
  split; [|split; [|exact Hs]].
  - exists k'. repeat split; auto. intros j Hj. apply Hall. lia.
  - exists k'. split; [lia | reflexivity].
Qed.

(** X5. What [save] does to the instance.  [category], [name],
    [description], [price], [is_active] and [status] are never changed; a
    slug that is not blank is kept; a key that is set is kept;
    [published_at] is set to the current time exactly when the status is
    ["published"] and no time is recorded, and kept otherwise. *)
Theorem save_frame (update_fields : option (list string)) (now : Z)
        (self : Product) (objects : list Product) :
  let self' := fst (save slugify update_fields now self objects) in
  (category_id self' = category_id self /\ name self' = name self /\
   description self' = description self /\ price self' = price self /\
   is_active self' = is_active self /\ status self' = status self) /\
  (slug self <> "" -> slug self' = slug self) /\
  (forall k, pk self = Some k -> pk self' = Some k) /\
  published_at self'
  = (if String.eqb (status self) ProductStatus.PUBLISHED
     then match published_at self with
          | Some t => Some t
          | None => Some now
          end
     else published_at self).
Proof.
  intros self'.
  destruct (save_prepared slugify update_fields now self objects)
    as (self2 & Heq & Hpk & Hcat & Hn & Hs & Hd & Hp & Ha & Hst & _ & Hpub).
  pose proof (Model_save_instance update_fields now self2 objects) as Hinst.
  cbv zeta in Hinst.
  destruct Hinst as (Hcat' & Hn' & Hs' & Hd' & Hp' & Ha' & Hst' & Hpub' & _).
  unfold self'. rewrite Heq.
  split; [repeat split; congruence|].
  split; [|split].
  - intros Hslug. rewrite Hs', Hs.
    destruct (_ensure_slug_cases slugify self objects)
      as [[_ ->] | (H & _)]; [reflexivity | contradiction].
  - intros k Hk. apply Model_save_keeps_pk. congruence.
  - congruence.
Qed.

Lemma Model_save_full_rows (now : Z) (self : Product)
      (objects objects' : list Product) :
  let result := Model_save None now self objects in
  snd result = Ok objects' ->
  exists k,
    pk (fst result) = Some k /\
    find_pk pk k objects' = Some (fst result) /\
    (forall q, In q objects' -> q = fst result \/ In q objects) /\
    (pk self = None ->
     objects' = objects ++ [fst result] /\ exists_pk pk k objects = false).
Proof.
  unfold Model_save. destruct (pk self) as [k|] eqn:Hk; simpl.
  - destruct (update _ objects) as [[t'|]|e] eqn:Hu; simpl;
      try discriminate.
    + intros [= <-]. apply UPDATE_Ok in Hu.
      destruct Hu as (k' & Hk' & Hex & _ & ->). simpl in Hk'.
      exists k'. split; [exact Hk'|].
      split; [now apply find_pk_replace|].
      split; [|intros H; discriminate].
      intros q Hq. apply In_replace_pk in Hq. tauto.
    + intros Hi. apply INSERT_Ok in Hi.
      destruct Hi as (k' & Hk' & Hfresh & _ & ->). simpl in Hk'.
      exists k'. split; [exact Hk'|].
      split; [now apply find_pk_appended|].
      split; [|intros H; discriminate].
      intros q Hq. apply in_app_iff in Hq.
      destruct Hq as [Hq | [<- | []]]; auto.
  - destruct (insert _ objects) as [t'|e] eqn:Hi; simpl; try discriminate.
    intros [= <-]. apply INSERT_Ok in Hi.
    destruct Hi as (k' & Hk' & Hfresh & _ & ->).
    exists k'. split; [exact Hk'|].
    split; [now apply find_pk_appended|].
    split; [|intros _; auto].
    intros q Hq. apply in_app_iff in Hq.
    destruct Hq as [Hq | [<- | []]]; auto.
Qed.

(** X6. Save, then look up.  After an accepted full [save] a row is
    stored under the key of the instance, and it agrees with the instance
    as [save] left it on every column other than the price: key, slug and
    time stamps included.  A product that had no key is stored as one more
    row, under a key no row had. *)
Theorem save_then_lookup (now : Z) (self : Product)
        (objects objects' : list Product) :
  let result := save slugify None now self objects in
  snd result = Ok objects' ->
  exists k row,
    pk (fst result) = Some k /\
    find_pk pk k objects' = Some row /\
    same_but_price row (fst result) /\
    (pk self = None ->
     objects' = objects ++ [row] /\ exists_pk pk k objects = false).
Proof.
  intros result Hok.
  destruct (save_prepared slugify None now self objects)
    as (self2 & Heq & Hpk & _).
  unfold result in *. rewrite Heq in *.
  destruct (Model_save_full_rows now self2 objects objects' Hok)
    as (k & Hk & Hfind & _ & Hnew).
  exists k, (fst (Model_save None now self2 objects)).
  split; [exact Hk|]. split; [exact Hfind|].
  split; [unfold same_but_price; repeat split; reflexivity|].
  intros Hnone. apply Hnew. congruence.
Qed.

Lemma managed_persisted (objects : list Product) :
  managed slugify objects -> persisted objects.
Proof.
  induction 1 as [| now self objects objects' _ IH Hok
                  | now self objects objects' _ IH Hok
                  | k objects _ IH].
  - apply reach_empty.
  - eapply save_persisted; eauto.
  - unfold publish in Hok.
    destruct (negb (String.eqb (status self) ProductStatus.PUBLISHED)).
    + eapply save_persisted; eauto.
    + simpl in Hok. injection Hok as <-. exact IH.
  - eapply reach_step; [exact IH | apply step_delete].
Qed.

(** X7. In a table kept through full saves, [publish] and deletions,
    every row whose status is ["published"] has a publication time; such
    a table is also one built by accepted writes, so all the declared
    constraints hold in it. *)
Theorem managed_published_rows_are_stamped (objects : list Product) :
  managed slugify objects ->
  persisted objects /\
  forall row, In row objects ->
              status row = ProductStatus.PUBLISHED ->
              published_at row <> None.
Proof.
  intros Hm. split; [now apply managed_persisted|].
  induction Hm as [| now self objects objects' _ IH Hok
                   | now self objects objects' _ IH Hok
                   | k objects _ IH].
  - intros row [].
  - intros row Hrow Hst.
    destruct (save_prepared slugify None now self objects)
      as (self2 & Heq & _ & _ & _ & _ & _ & _ & _ & Hst2 & _ & Hpub2).
    rewrite Heq in Hok.
    pose proof (Model_save_instance None now self2 objects) as Hinst.
    cbv zeta in Hinst.
    destruct Hinst as (_ & _ & _ & _ & _ & _ & Hst' & Hpub' & _).
    destruct (Model_save_full_rows now self2 objects objects' Hok)
      as (k & _ & _ & Hrows & _).
    destruct (Hrows row Hrow) as [-> | Hold]; [|now apply IH].
    rewrite Hpub', Hpub2.
    rewrite Hst', Hst2 in Hst. rewrite Hst. simpl.
    destruct (published_at self); discriminate.
  - intros row Hrow Hst.
    destruct (String.eqb_spec (status self) ProductStatus.PUBLISHED)
      as [Hp | Hp].
    + unfold publish in Hok. rewrite Hp in Hok. simpl in Hok.
      injection Hok as <-. now apply IH.
    + destruct (publish_unpublished slugify now self objects Hp)
        as (self2 & Heq & _ & _ & _ & _ & _ & _ & _ & _ & _ & Hpub2).
      rewrite Heq in Hok.
      pose proof (Model_save_instance
                    (Some ["status"; "published_at"; "updated_at"])
                    now self2 objects) as Hinst.
      cbv zeta in Hinst.
      destruct Hinst as (_ & _ & _ & _ & _ & _ & _ & Hpub' & _).
      apply Model_save_fields_Ok in Hok.
      destruct Hok as (k & old & _ & _ & ->).
      apply In_replace_pk in Hrow.
      destruct Hrow as [-> | [Hold _]]; [|now apply IH].
      set (inst := fst (Model_save _ now self2 objects)) in *.
      unfold merge_fields. cbn [published_at].
      change (mentions ["status"; "published_at"; "updated_at"]
                       "published_at") with true.
      cbv iota. rewrite Hpub', Hpub2. discriminate.
  - intros row Hrow. apply In_others in Hrow. apply IH. tauto.
Qed.

End SaveExtras.

Lemma ensure_slug_loop_ends_witness :
  (List.length [Examples.red_mug_row] < 7)%nat /\
  Product._ensure_slug_loop 7 [Examples.red_mug_row] None
                            "red-mug" "red-mug" 2 = Some "red-mug-2".
Proof.
  split; [simpl; lia|].
  destruct (ensure_slug_loop_ends [Examples.red_mug_row] None "red-mug" 7
              ltac:(simpl; lia)) as (s & Hs & _ & _ & Hbound).
  rewrite Hs. rewrite <- Hbound. reflexivity.
Defined.

Lemma save_frame_witness :
  Product.slug Examples.red_mug_row <> "" /\
  Product.slug
    (fst (Product.save Text.slugify_ascii None 30
            (Product.set_status ProductStatus.PUBLISHED Examples.red_mug_row)
            [Examples.red_mug_row]))
  = Product.slug Examples.red_mug_row.
Proof.
  split; [discriminate|].
  apply (proj1 (proj2 (save_frame Text.slugify_ascii None 30
                         (Product.set_status ProductStatus.PUBLISHED
                                             Examples.red_mug_row)
                         [Examples.red_mug_row]))).
  discriminate.
Defined.

Lemma save_then_lookup_witness :
  snd (Product.save Text.slugify_ascii None 10 Examples.red_mug [])
  = Ok [Examples.red_mug_row] /\
  exists k row,
    Product.pk (fst (Product.save Text.slugify_ascii None 10
                                  Examples.red_mug [])) = Some k /\
    find_pk Product.pk k [Examples.red_mug_row] = Some row /\
    Product.same_but_price
      row (fst (Product.save Text.slugify_ascii None 10
                             Examples.red_mug [])).
Proof.
  split; [reflexivity|].
  destruct (save_then_lookup Text.slugify_ascii 10 Examples.red_mug []
              [Examples.red_mug_row] eq_refl)
    as (k & row & Hk & Hfind & Hsame & _).
  exists k, row. split; [exact Hk|]. split; [exact Hfind | exact Hsame].
Defined.

Lemma managed_published_rows_are_stamped_witness :
  Product.managed Text.slugify_ascii [Examples.red_mug_published] /\
  Product.published_at Examples.red_mug_published <> None.
Proof.
  assert (Hm : Product.managed Text.slugify_ascii
                 [Examples.red_mug_published]).
  { apply Product.managed_publish
      with (now := 20) (self := Examples.red_mug_row)
           (objects := [Examples.red_mug_row]); [|reflexivity].
    apply Product.managed_save
      with (now := 10) (self := Examples.red_mug) (objects := []);
      [apply Product.managed_empty | reflexivity]. }
  split; [exact Hm|].
  apply (proj2 (managed_published_rows_are_stamped Text.slugify_ascii _ Hm)).
  - simpl; auto.
  - reflexivity.
Defined.

(* ------------------------------------------------------------------ *)
(** ** More on [publish] *)
(* ------------------------------------------------------------------ *)

Section PublishExtras.

Import Product.

Variable slugify : string -> string.

Local Arguments mentions : simpl never.
Local Arguments merge_fields : simpl never.
Local Arguments _ensure_slug : simpl never.

Lemma find_pk_None (k : Z) (tbl : list Product) :
  exists_pk pk k tbl = false -> find_pk pk k tbl = None.
Proof.
  intros Hex. destruct (find_pk pk k tbl) as [old|] eqn:Hf; auto.
  assert (exists_pk pk k tbl = true)
    by (apply exists_pk_find; eauto).
  congruence.
Qed.

(** X8. [publish] needs the stored row.  For a product that is not
    published yet it raises [ValueError] when the instance has no key
    and [DatabaseError] when no row has its key, and whenever it raises,
    the instance has already been given the status ["published"] and a
    publication time. *)
Theorem publish_without_stored_row (now : Z) (self : Product)
        (objects : list Product) :
  status self <> ProductStatus.PUBLISHED ->
  let result := publish slugify now self objects in
  (pk self = None -> snd result = Raise ValueError) /\
  (forall k, pk self = Some k -> exists_pk pk k objects = false ->
             snd result = Raise DatabaseError) /\
  (forall e, snd result = Raise e ->
             status (fst result) = ProductStatus.PUBLISHED /\
             published_at (fst result) <> None).
Proof.
  intros Hst result.
  destruct (publish_unpublished slugify now self objects Hst)
    as (self2 & Heq & Hpk & _ & _ & _ & _ & _ & _ & _ & Hst2 & Hpub2).
  pose proof (Model_save_instance
                (Some ["status"; "published_at"; "updated_at"])
                now self2 objects) as Hinst.
  cbv zeta in Hinst.
  destruct Hinst as (_ & _ & _ & _ & _ & _ & Hst' & Hpub' & _).
  unfold result. rewrite Heq. split; [|split].
  - intros Hnone. unfold Model_save. rewrite Hpk, Hnone. reflexivity.
  - intros k Hk Hex. unfold Model_save. rewrite Hpk, Hk.
    cbv zeta. rewrite (find_pk_None k objects Hex). reflexivity.
  - intros e _. split; [congruence|].
    rewrite Hpub', Hpub2. discriminate.
Qed.

Lemma violates_same_columns (c : Constraint Product) (r r' : Product)
      (rest : list Product) :
  In c constraints ->
  name r = name r' -> slug r = slug r' -> price r = price r' ->
  is_active r = is_active r' ->
  violates c r rest = violates c r' rest.
Proof.
  intros Hc Hn Hs Hp Ha.
  assert (Hck : check_ok c r = check_ok c r' /\
                forall q, conflict c r q = conflict c r' q).
  { unfold constraints in Hc; simpl in Hc.
    destruct Hc as [<- | [<- | [<- | []]]]; simpl;
      rewrite ?Hn, ?Hs, ?Hp, ?Ha; auto. }
  destruct Hck as [Hck Hcf]. unfold violates. rewrite Hck. f_equal.
  induction rest as [|q rest IH]; simpl; auto.
  now rewrite Hcf, IH.
Qed.

(** X9. [publish] cannot be refused by a constraint.  In a table built
    by accepted writes, publishing a product that is not published yet
    and whose row is stored is always accepted: the three columns it
    writes are not part of any declared constraint. *)
Theorem publish_accepted_on_stored_row (now : Z) (self : Product)
        (objects : list Product) (k : Z) :
  persisted objects ->
  status self <> ProductStatus.PUBLISHED ->
  pk self = Some k -> exists_pk pk k objects = true ->
  exists objects', snd (publish slugify now self objects) = Ok objects'.
Proof.
  intros Hreach Hst Hk Hex.
  apply reachable_consistent in Hreach.
  destruct (publish_unpublished slugify now self objects Hst)
    as (self2 & Heq & Hpk & _).
  rewrite Heq. unfold Model_save. rewrite Hpk, Hk. cbv zeta.
  destruct (proj1 (exists_pk_find _ pk k objects) Hex) as (old & Hfind).
  rewrite Hfind. apply find_pk_In in Hfind. destruct Hfind as [Hold Holdk].
  set (row := merge_fields _ _ old).
  assert (Hrow : pk row = Some k) by exact Holdk.
  assert (Hnil : violated constraints row (others pk k objects) = []).
  { apply violated_nil. intros c Hc.
    rewrite (violates_same_columns c row old); auto.
    apply violates_false. split.
    - apply (checks_hold _ _ _ _ Hreach); auto.
    - intros q Hq. apply In_others in Hq. destruct Hq as [Hq Hne].
      apply (uniques_hold _ _ _ _ Hreach); auto. congruence. }
  unfold update, UPDATE. rewrite Hrow, Hex, Hnil. simpl. eauto.
Qed.

(** X10. [publish] and [published()] together.  After an accepted
    [publish] of a product that was not published, the rows of other
    products are returned by [published()] exactly as before, and the row
    of the product is returned exactly when it is stored as active. *)
Theorem publish_then_published (now : Z) (self : Product)
        (objects objects' : list Product) :
  status self <> ProductStatus.PUBLISHED ->
  snd (publish slugify now self objects) = Ok objects' ->
  (forall q, pk q <> pk self ->
             (In q (published objects') <-> In q (published objects))) /\
  (exists row, In row objects' /\ pk row = pk self /\
               (In row (published objects') <-> is_active row = true)).
Proof.
  intros Hst Hok.
  destruct (publish_unpublished slugify now self objects Hst)
    as (self2 & Heq & Hpk & _ & _ & _ & _ & _ & _ & _ & Hst2 & _).
  pose proof (Model_save_instance
                (Some ["status"; "published_at"; "updated_at"])
                now self2 objects) as Hinst.
  cbv zeta in Hinst.
  destruct Hinst as (_ & _ & _ & _ & _ & _ & Hst' & _).
  rewrite Heq in Hok. apply Model_save_fields_Ok in Hok.
  destruct Hok as (k & old & Hk & Hfind & ->).
  apply find_pk_In in Hfind. destruct Hfind as [Hold Holdk].
  set (inst := fst (Model_save _ now self2 objects)) in *.
  set (row := merge_fields _ inst old).
  assert (Hrow : pk row = Some k) by exact Holdk.
  assert (Hrst : status row = ProductStatus.PUBLISHED).
  { unfold row, merge_fields. cbn [status].
    change (mentions ["status"; "published_at"; "updated_at"] "status")
      with true.
    cbv iota. congruence. }
  split.
  - intros q Hq. unfold published. rewrite !filter_In.
    assert (Hqk : pk q <> Some k) by congruence.
    split; intros [Hin Hf]; split; auto.
    + apply In_replace_pk in Hin. destruct Hin as [-> | [Hin _]]; auto.
      congruence.
    + now apply In_replace_pk_kept.
  - exists row. split; [eapply In_replace_pk_new; eauto|].
    split; [congruence|].
    unfold published. rewrite filter_In, Hrst. simpl.
    rewrite active_eqb. split; [tauto|].
    intros Ha. split; auto. eapply In_replace_pk_new; eauto.
Qed.

End PublishExtras.

Lemma publish_without_stored_row_witness :
  Product.status Examples.red_mug <> ProductStatus.PUBLISHED /\
  Product.pk Examples.red_mug = None /\
  snd (Product.publish Text.slugify_ascii 20 Examples.red_mug [])
  = Raise ValueError /\
  snd (Product.publish Text.slugify_ascii 20 Examples.red_mug_row
                       [Examples.blue_mug_row])
  = Raise DatabaseError.
Proof.
  split; [discriminate|]. split; [reflexivity|]. split.
  - apply (proj1 (publish_without_stored_row Text.slugify_ascii 20
                    Examples.red_mug [] ltac:(discriminate))).
    reflexivity.
  - apply (proj1 (proj2 (publish_without_stored_row Text.slugify_ascii 20
                           Examples.red_mug_row [Examples.blue_mug_row]
                           ltac:(discriminate))) 1); reflexivity.
Defined.

Lemma publish_accepted_on_stored_row_witness :
  Product.persisted [Examples.red_mug_row; Examples.blue_mug_row] /\
  exists objects',
    snd (Product.publish Text.slugify_ascii 20 Examples.blue_mug_row
                         [Examples.red_mug_row; Examples.blue_mug_row])
    = Ok objects'.
Proof.
  assert (Hreach : Product.persisted
                     [Examples.red_mug_row; Examples.blue_mug_row]).
  { apply reach_step with (tbl := [Examples.red_mug_row]).
    - apply reach_step with (tbl := []); [apply reach_empty|].
      apply step_insert with (r := Examples.red_mug_row). reflexivity.
    - apply step_insert with (r := Examples.blue_mug_row). reflexivity. }
  split; [exact Hreach|].
  apply (publish_accepted_on_stored_row Text.slugify_ascii 20
           Examples.blue_mug_row _ 2 Hreach).
  - discriminate.
  - reflexivity.
  - reflexivity.
Defined.

Lemma publish_then_published_witness :
  Product.status Examples.red_mug_row <> ProductStatus.PUBLISHED /\
  exists row,
    In row [Examples.red_mug_published; Examples.blue_mug_row] /\
    Product.pk row = Product.pk Examples.red_mug_row /\
    (In row (Product.published
               [Examples.red_mug_published; Examples.blue_mug_row])
     <-> Product.is_active row = true).
Proof.
  split; [discriminate|].
  apply (proj2 (publish_then_published Text.slugify_ascii 20
                  Examples.red_mug_row
                  [Examples.red_mug_row; Examples.blue_mug_row]
                  [Examples.red_mug_published; Examples.blue_mug_row]
                  ltac:(discriminate) eq_refl)).
Defined.

(* ------------------------------------------------------------------ *)
(** ** [ProductQuerySet]: [search] and chaining *)
(* ------------------------------------------------------------------ *)

Lemma prefix_append (needle hay : string) :
  String.prefix needle hay = true <->
  exists post, hay = (needle ++ post)%string.
Proof.
  revert hay. induction needle as [|c needle IH]; intros hay; simpl.
  - split; [eauto | intros _; destruct hay; reflexivity].
  - destruct hay as [|d hay].
    + split; [discriminate | intros (post & H); discriminate].
    + simpl. destruct (Ascii.ascii_dec c d) as [-> | Hne].
      * rewrite IH. split; intros (post & H); exists post; congruence.
      * split; [discriminate|]. intros (post & [= H _]). congruence.
Qed.

(** [contains] is the search for a substring. *)
Lemma contains_infix (needle hay : string) :
  Product.contains needle hay = true <->
  exists pre post, hay = (pre ++ needle ++ post)%string.
Proof.
  induction hay as [|c hay IH]; cbn [Product.contains].
  - rewrite prefix_append. split.
    + intros (post & H). exists "", post. exact H.
    + intros ([|d pre] & post & H); [eauto | discriminate].
  - rewrite orb_true_iff, IH.
    rewrite (prefix_append needle (String c hay)). split.
    + intros [(post & H) | (pre & post & H)].
      * exists "", post. exact H.
      * exists (String c pre), post. simpl. congruence.
    + intros ([|d pre] & post & H).
      * left. exists post. exact H.
      * right. injection H as _ H. eauto.
Qed.

Lemma Lower_empty (text : string) : Text.Lower text = "" -> text = "".
Proof. destruct text; simpl; [auto | discriminate]. Qed.

Lemma filter_filter_comm {A} (f g : A -> bool) (l : list A) :
  filter f (filter g l) = filter g (filter f l).
Proof.
  induction l as [|x l IH]; simpl; auto.
  destruct (f x) eqn:Ef, (g x) eqn:Eg; simpl;
    rewrite ?Ef, ?Eg, ?IH; reflexivity.
Qed.

Lemma filter_twice {A} (f : A -> bool) (l : list A) :
  filter f (filter f l) = filter f l.
Proof.
  induction l as [|x l IH]; simpl; auto.
  destruct (f x) eqn:Ef; simpl; rewrite ?Ef, ?IH; reflexivity.
Qed.

Section Search.

Import Product.

(** X11. [search] with no text, or with the empty text, returns the
    query set as it is.  With a text it returns exactly the rows in whose
    name or description the text occurs, letter case ignored on both
    sides. *)
Theorem search_finds_occurrences (qs : list Product) :
  search None qs = qs /\ search (Some "") qs = qs /\
  forall text p,
    text <> "" ->
    (In p (search (Some text) qs) <->
     In p qs /\
     exists pre post,
       Text.Lower (name p) = (pre ++ Text.Lower text ++ post)%string \/
       Text.Lower (description p)
       = (pre ++ Text.Lower text ++ post)%string).
Proof.
  split; [reflexivity|]. split; [reflexivity|].
  intros text p Htext. unfold search.
  apply truthy_true in Htext. rewrite Htext. cbn [negb].
  rewrite filter_In, orb_true_iff. unfold icontains.
  rewrite !contains_infix. split.
  - intros [Hin [(pre & post & H) | (pre & post & H)]];
      split; auto; exists pre, post; auto.
  - intros [Hin (pre & post & [H | H])]; split; auto; [left | right];
      eauto.
Qed.

Lemma search_finds_occurrences_witness :
  In Examples.blue_mug_row
     (search (Some "MUG") [Examples.red_mug_row; Examples.blue_mug_row]).
Proof.
  apply (proj2 (proj2 (search_finds_occurrences
                         [Examples.red_mug_row; Examples.blue_mug_row]))
               "MUG" Examples.blue_mug_row).
  - discriminate.
  - split; [simpl; auto|].
    exists "blue ", "". left. reflexivity.
Defined.

(** X12. [search] does not see the letter case of the text searched
    for: two texts with the same lower-cased form select the same rows. *)
Theorem search_ignores_case (text text' : string) (qs : list Product) :
  Text.Lower text = Text.Lower text' ->
  search (Some text) qs = search (Some text') qs.
Proof.
  intros Heq. unfold search, icontains. rewrite Heq.
  destruct (Text.truthy text) eqn:Et, (Text.truthy text') eqn:Et';
    cbn [negb]; auto.
  - apply truthy_false in Et'. subst text'. simpl in Heq.
    apply Lower_empty in Heq. apply truthy_true in Et. contradiction.
  - apply truthy_false in Et. subst text. simpl in Heq.
    symmetry in Heq. apply Lower_empty in Heq.
    apply truthy_true in Et'. contradiction.
Qed.

Lemma search_ignores_case_witness :
  Text.Lower "mug" = Text.Lower "MuG" /\
  search (Some "mug") [Examples.red_mug_row; Examples.blue_mug_row]
  = search (Some "MuG") [Examples.red_mug_row; Examples.blue_mug_row].
Proof.
  split; [reflexivity|].
  apply (search_ignores_case "mug" "MuG"). reflexivity.
Defined.

(** X13. The query-set methods can be chained in any order:
    [published()] is [active()] narrowed further, [search] commutes with
    both, and applying a method twice is applying it once. *)
Theorem queryset_methods_chain (q : option string) (qs : list Product) :
  published (active qs) = published qs /\
  active (published qs) = published qs /\
  search q (active qs) = active (search q qs) /\
  search q (published qs) = published (search q qs) /\
  search q (search q qs) = search q qs.
Proof.
  assert (Hpa : published (active qs) = published qs).
  { unfold published, active. induction qs as [|p l IH]; simpl; auto.
    destruct (is_active p) eqn:Ea; simpl; rewrite ?Ea, ?IH.
    - reflexivity.
    - rewrite andb_false_r. reflexivity. }
  split; [exact Hpa|]. split.
  - clear Hpa. unfold published, active.
    induction qs as [|p l IH]; simpl; auto.
    destruct (String.eqb (status p) ProductStatus.PUBLISHED),
             (is_active p) eqn:Ea; simpl; rewrite ?Ea, ?IH; reflexivity.
  - unfold search, active, published.
    destruct q as [text|]; auto.
    destruct (negb (Text.truthy text)); auto.
    repeat split; auto using filter_filter_comm, filter_twice.
Qed.

End Search.

(* ------------------------------------------------------------------ *)
(** ** Category trees: cycles and [__str__] *)
(* ------------------------------------------------------------------ *)

Lemma append_assoc3 (a b c : string) :
  ((a ++ b) ++ c)%string = (a ++ b ++ c)%string.
Proof.
  induction a as [|ch a IH]; simpl; [reflexivity | now rewrite IH].
Qed.

Lemma concat_snoc (sep : string) (l : list string) (x : string) :
  l <> [] ->
  String.concat sep (l ++ [x])
  = (String.concat sep l ++ sep ++ x)%string.
Proof.
  induction l as [|a l IH]; [congruence|]. intros _.
  destruct l as [|b l].
  - reflexivity.
  - change (String.concat sep ((a :: b :: l) ++ [x]))
      with (a ++ sep ++ String.concat sep ((b :: l) ++ [x]))%string.
    rewrite IH by discriminate.
    change (String.concat sep (a :: b :: l))
      with (a ++ sep ++ String.concat sep (b :: l))%string.
    rewrite !append_assoc3. reflexivity.
Qed.

Section CategoryTrees.

Import Category.

Lemma lineage_nonempty objects path self :
  lineage objects path self -> path <> [].
Proof.
  destruct 1; [discriminate|]. destruct path; discriminate.
Qed.

(** X14. Only direct self-parenting is ruled out.  Any two categories
    with different keys can be stored as each other's parent: the table
    holding both is built by accepted writes (insert the first without a
    parent, insert the second under it, then move the first under the
    second). *)
Theorem category_two_cycle_accepted (a b : Category) (i j : Z) :
  i <> j ->
  id a = Some i -> id b = Some j ->
  parent_id a = Some j -> parent_id b = Some i ->
  persisted [a; b].
Proof.
  intros Hij Ha Hb Hpa Hpb.
  destruct a as [ia na sa pa], b as [ib nb sb pb]. simpl in *. subst.
  assert (Hji : Z.eqb j i = false) by (apply Z.eqb_neq; congruence).
  assert (Hij' : Z.eqb i j = false) by (apply Z.eqb_neq; congruence).
  set (a0 := {| id := Some i; name := na; slug := sa; parent_id := None |}).
  set (a := {| id := Some i; name := na; slug := sa; parent_id := Some j |}).
  set (b := {| id := Some j; name := nb; slug := sb; parent_id := Some i |}).
  apply reach_step with (tbl := [a0; b]).
  - apply reach_step with (tbl := [a0]).
    + apply reach_step with (tbl := []); [apply reach_empty|].
      apply step_insert with (r := a0). reflexivity.
    + apply step_insert with (r := b).
      unfold INSERT, exists_pk, has_pk, violated, violates. simpl.
      rewrite Hij'. simpl.
      destruct (String.eqb (Text.Lower sb) (Text.Lower sa)); reflexivity.
  - apply step_update with (r := a).
    unfold UPDATE, exists_pk, others, replace_pk, has_pk, violated,
      violates. simpl.
    rewrite ?Z.eqb_refl, ?Hji. simpl. rewrite ?Z.eqb_refl, ?Hji. simpl.
    destruct (String.eqb (Text.Lower sa) (Text.Lower sb)); reflexivity.
Qed.

Lemma category_two_cycle_accepted_witness :
  persisted [Examples.cat_shoes_in_boots; Examples.cat_boots].
Proof.
  apply (category_two_cycle_accepted Examples.cat_shoes_in_boots
           Examples.cat_boots 1 2); try reflexivity.
  discriminate.
Defined.

(** X15. [str(category)] is the path from the top: when [path] lists
    the category and its ancestors, topmost first, and the nesting limit
    is at least the length of the path, the result is the names of the
    path joined by [" > "]. *)
Theorem str_is_path_of_names (objects : list Category)
        (path : list Category) (self : Category) (limit : nat) :
  lineage objects path self ->
  (List.length path <= limit)%nat ->
  __str__ limit objects self = Str (String.concat " > " (map name path)).
Proof.
  intros Hl. revert limit.
  induction Hl as [self Htop | path parent self k Hk Hfind Hl IH];
    intros limit Hlimit.
  - destruct limit as [|limit]; [simpl in Hlimit; lia|].
    simpl. rewrite Htop. reflexivity.
  - rewrite length_app in Hlimit. simpl in Hlimit.
    destruct limit as [|limit]; [lia|].
    cbn [__str__]. rewrite Hk, Hfind, (IH limit) by lia.
    rewrite map_app. simpl map. rewrite concat_snoc; [reflexivity|].
    apply lineage_nonempty in Hl. destruct path; [congruence|discriminate].
Qed.

Lemma str_is_path_of_names_witness :
  lineage [Examples.cat_shoes; Examples.cat_boots; Examples.cat_ankle]
          [Examples.cat_shoes; Examples.cat_boots; Examples.cat_ankle]
          Examples.cat_ankle /\
  __str__ 1000 [Examples.cat_shoes; Examples.cat_boots; Examples.cat_ankle]
          Examples.cat_ankle
  = Str "Shoes > Boots > Ankle".
Proof.
  assert (Hl : lineage
                 [Examples.cat_shoes; Examples.cat_boots; Examples.cat_ankle]
                 [Examples.cat_shoes; Examples.cat_boots; Examples.cat_ankle]
                 Examples.cat_ankle).
  { apply (lineage_child _ [Examples.cat_shoes; Examples.cat_boots]
                         Examples.cat_boots Examples.cat_ankle 2);
      try reflexivity.
    apply (lineage_child _ [Examples.cat_shoes]
                         Examples.cat_shoes Examples.cat_boots 1);
      try reflexivity.
    apply lineage_top. reflexivity. }
  split; [exact Hl|].
  apply (str_is_path_of_names _ _ _ 1000 Hl). simpl. lia.
Defined.

(** X16. On two categories that are each other's parent, [str] never
    returns a text: whatever the nesting limit, the calls exhaust it. *)
Theorem str_of_cycle_exhausts_limit (objects : list Category)
        (a b : Category) (ka kb : Z) :
  truthy_parent_id a = Some kb -> find_pk id kb objects = Some b ->
  truthy_parent_id b = Some ka -> find_pk id ka objects = Some a ->
  forall limit, __str__ limit objects a = RecursionError.
Proof.
  intros Ha Hfb Hb Hfa limit.
  enough (H : __str__ limit objects a = RecursionError /\
              __str__ limit objects b = RecursionError) by apply H.
  induction limit as [|limit [IHa IHb]]; [split; reflexivity|].
  split; cbn [__str__].
  - now rewrite Ha, Hfb, IHb.
  - now rewrite Hb, Hfa, IHa.
Qed.

Lemma str_of_cycle_exhausts_limit_witness :
  __str__ 1000 [Examples.cat_shoes_in_boots; Examples.cat_boots]
          Examples.cat_boots
  = RecursionError.
Proof.
  apply (str_of_cycle_exhausts_limit
           [Examples.cat_shoes_in_boots; Examples.cat_boots]
           Examples.cat_boots Examples.cat_shoes_in_boots 2 1);
    reflexivity.
Defined.

End CategoryTrees.

(* ------------------------------------------------------------------ *)
(** ** Deleting: PROTECT and CASCADE *)
(* ------------------------------------------------------------------ *)

Lemma filter_nil_iff {A} (f : A -> bool) (l : list A) :
  filter f l = [] <-> forall x, In x l -> f x = false.
Proof.
  induction l as [|a l IH]; simpl.
  - split; [intros _ x [] | reflexivity].
  - destruct (f a) eqn:Ea.
    + split; [discriminate|]. intros H.
      specialize (H a (or_introl eq_refl)). congruence.
    + rewrite IH. split.
      * intros H x [<- | Hx]; auto.
      * intros H x Hx. apply H. now right.
Qed.

Lemma exists_pk_In {Row} (pk_of : Row -> option Z) (k : Z) (tbl : list Row) :
  exists_pk pk_of k tbl = true <-> exists r, In r tbl /\ pk_of r = Some k.
Proof.
  unfold exists_pk. rewrite existsb_exists.
  split; intros (r & Hr & H); exists r; split; auto;
    now apply has_pk_true.
Qed.

Lemma exists_pk_others {Row} (pk_of : Row -> option Z) (p k : Z)
      (tbl : list Row) :
  exists_pk pk_of p tbl = true -> p <> k ->
  exists_pk pk_of p (others pk_of k tbl) = true.
Proof.
  rewrite !exists_pk_In. intros (r & Hr & Hp) Hne. exists r.
  split; auto. apply In_others. split; auto. congruence.
Qed.

Section Deleting.

Import Catalog.

Lemma children_of_nil (k : Z) (db : DB) :
  children_of k db = [] <->
  forall c, In c (categories db) -> Category.parent_id c <> Some k.
Proof.
  unfold children_of. rewrite filter_nil_iff.
  split; intros H c Hc; specialize (H c Hc).
  - destruct (Category.parent_id c) as [p|]; [|discriminate].
    apply Z.eqb_neq in H. congruence.
  - destruct (Category.parent_id c) as [p|]; auto.
    apply Z.eqb_neq. congruence.
Qed.

Lemma products_of_nil (k : Z) (db : DB) :
  products_of k db = [] <->
  forall p, In p (products db) -> Product.category_id p <> Some k.
Proof.
  unfold products_of. rewrite filter_nil_iff.
  split; intros H p Hp; specialize (H p Hp).
  - destruct (Product.category_id p) as [c|]; [|discriminate].
    apply Z.eqb_neq in H. congruence.
  - destruct (Product.category_id p) as [c|]; auto.
    apply Z.eqb_neq. congruence.
Qed.

(** X17. [Category.parent] and [Product.category] are PROTECT: deleting
    a stored category is refused exactly when some category has it as
    parent or some product is filed under it.  When it goes through, only
    that category's row leaves the tables, and if every reference pointed
    to a stored row before, it still does. *)
Theorem delete_category_protected (self : Category.Category) (db : DB)
        (k : Z) :
  Category.id self = Some k ->
  ((exists children filed,
      delete_category self db = ProtectedError children filed) <->
   (exists c, In c (categories db) /\ Category.parent_id c = Some k) \/
   (exists p, In p (products db) /\ Product.category_id p = Some k)) /\
  (forall db',
     delete_category self db = Deleted db' ->
     (forall c, In c (categories db') <->
                In c (categories db) /\ Category.id c <> Some k) /\
     tags db' = tags db /\ products db' = products db /\
     product_tags db' = product_tags db /\
     (references_resolve db -> references_resolve db')).
Proof.
  intros Hk. unfold delete_category. rewrite Hk.
  destruct (children_of k db) as [|c cs] eqn:Hc.
  - destruct (products_of k db) as [|p ps] eqn:Hp.
    + pose proof (proj1 (children_of_nil k db) Hc) as Hnc.
      pose proof (proj1 (products_of_nil k db) Hp) as Hnp.
      split.
      * split; [intros (? & ? & ?); discriminate|].
        intros [(c & Hin & Hpar) | (p & Hin & Hcat)].
        -- elim (Hnc c Hin Hpar).
        -- elim (Hnp p Hin Hcat).
      * intros db' [= <-]. simpl.
        split; [intros c; apply In_others|].
        split; [reflexivity|]. split; [reflexivity|].
        split; [reflexivity|].
        intros [Hpar Hcat Htp Htt]. constructor; simpl; auto.
        -- intros c p Hin Hcp. apply In_others in Hin.
           destruct Hin as [Hin _].
           apply exists_pk_others; eauto.
           intros ->. elim (Hnc c Hin Hcp).
        -- intros p c Hin Hpc.
           apply exists_pk_others; eauto.
           intros ->. elim (Hnp p Hin Hpc).
    + split; [|intros db' H; discriminate].
      split; [|eauto]. intros _. right.
      assert (Hin : In p (products_of k db)) by (rewrite Hp; now left).
      unfold products_of in Hin. apply filter_In in Hin.
      destruct Hin as [Hin Hf]. exists p. split; auto.
      destruct (Product.category_id p) as [c|]; [|discriminate].
      apply Z.eqb_eq in Hf. congruence.
  - split.
    + split.
      * intros _. left.
        assert (Hin : In c (children_of k db)) by (rewrite Hc; now left).
        unfold children_of in Hin. apply filter_In in Hin.
        destruct Hin as [Hin Hf]. exists c. split; auto.
        destruct (Category.parent_id c) as [p|]; [|discriminate].
        apply Z.eqb_eq in Hf. congruence.
      * intros _. destruct (products_of k db); eauto.
    + intros db' H. destruct (products_of k db); discriminate.
Qed.

Lemma delete_category_protected_witness :
  Category.id Examples.cat_boots = Some 2 /\
  (exists children filed,
     delete_category Examples.cat_boots Examples.shop
     = ProtectedError children filed) /\
  (exists db', delete_category Examples.cat_ankle Examples.shop
               = Deleted db' /\
               Catalog.products db' = Catalog.products Examples.shop).
Proof.
  split; [reflexivity|]. split.
  - apply (proj1 (delete_category_protected Examples.cat_boots
                    Examples.shop 2 eq_refl)).
    left. exists Examples.cat_ankle. split; [simpl; auto | reflexivity].
  - eexists. split; [reflexivity|].
    apply (proj2 (delete_category_protected Examples.cat_ankle
                    Examples.shop 3 eq_refl) _ eq_refl).
Defined.

(** X18. [ProductTag.product] and [ProductTag.tag] are CASCADE: deleting
    a stored product, or a stored tag, is never refused; it removes that
    row and exactly the join rows that refer to it, leaves the other
    tables alone, and if every reference pointed to a stored row before,
    it still does. *)
Theorem delete_cascades_to_join_rows (db : DB) (k : Z) :
  (forall self : Product.Product,
     Product.pk self = Some k ->
     exists db',
       delete_product self db = Deleted db' /\
       (forall p, In p (products db') <->
                  In p (products db) /\ Product.pk p <> Some k) /\
       (forall r, In r (product_tags db') <->
                  In r (product_tags db) /\ ProductTag.product_id r <> k) /\
       categories db' = categories db /\ tags db' = tags db /\
       (references_resolve db -> references_resolve db')) /\
  (forall self : Tag.Tag,
     Tag.id self = Some k ->
     exists db',
       delete_tag self db = Deleted db' /\
       (forall t, In t (tags db') <->
                  In t (tags db) /\ Tag.id t <> Some k) /\
       (forall r, In r (product_tags db') <->
                  In r (product_tags db) /\ ProductTag.tag_id r <> k) /\
       categories db' = categories db /\ products db' = products db /\
       (references_resolve db -> references_resolve db')).
Proof.
  split; intros self Hk.
  - unfold delete_product. rewrite Hk. eexists. split; [reflexivity|].
    simpl.
    assert (Hrows : forall r,
               In r (filter (fun r => negb (ProductTag.product_id r =? k))
                            (product_tags db)) <->
               In r (product_tags db) /\ ProductTag.product_id r <> k).
    { intros r. rewrite filter_In, negb_true_iff, Z.eqb_neq. tauto. }
    split; [intros p; apply In_others|].
    split; [exact Hrows|]. split; [reflexivity|]. split; [reflexivity|].
    intros [Hpar Hcat Htp Htt]. constructor; simpl; auto.
    + intros p c Hin. apply In_others in Hin. now apply Hcat.
    + intros r Hr. apply Hrows in Hr. destruct Hr as [Hr Hne].
      apply exists_pk_others; auto.
    + intros r Hr. apply Hrows in Hr. now apply Htt.
  - unfold delete_tag. rewrite Hk. eexists. split; [reflexivity|].
    simpl.
    assert (Hrows : forall r,
               In r (filter (fun r => negb (ProductTag.tag_id r =? k))
                            (product_tags db)) <->
               In r (product_tags db) /\ ProductTag.tag_id r <> k).
    { intros r. rewrite filter_In, negb_true_iff, Z.eqb_neq. tauto. }
    split; [intros t; apply In_others|].
    split; [exact Hrows|]. split; [reflexivity|]. split; [reflexivity|].
    intros [Hpar Hcat Htp Htt]. constructor; simpl; auto.
    + intros r Hr. apply Hrows in Hr. now apply Htp.
    + intros r Hr. apply Hrows in Hr. destruct Hr as [Hr Hne].
      apply exists_pk_others; auto.
Qed.

Lemma delete_cascades_to_join_rows_witness :
  Product.pk Examples.chelsea_boot = Some 1 /\
  delete_product Examples.chelsea_boot Examples.shop
  = Deleted {| categories := Catalog.categories Examples.shop;
               tags := Catalog.tags Examples.shop;
               products := [];
               product_tags := [] |} /\
  exists db', delete_tag Examples.tag_sale Examples.shop = Deleted db' /\
              Catalog.products db' = Catalog.products Examples.shop.
Proof.
  split; [reflexivity|]. split; [reflexivity|].
  destruct (proj2 (delete_cascades_to_join_rows Examples.shop 1)
                  Examples.tag_sale eq_refl)
    as (db' & Hdel & _ & _ & _ & Hprod & _).
  exists db'. split; [exact Hdel | exact Hprod].
Defined.

End Deleting.
